(** * Code journal: the entries API (server/server.ts) and the entry form

    A shallow embedding of the five request handlers of [server.ts] and of
    the submit path of the [EntryForm] component, together with the
    properties of the request/response contract.

    Layout:
    - [JsString], [JsNumber]: the JavaScript values the handlers compute
      with (UTF-16 strings, binary64 numbers, [Number(string)]);
    - [Store]: the [entries] table and the five SQL statements;
    - [Server]: the handlers, written in a small state-and-error monad;
    - [Client]: [handleSubmit], [addEntry], [updateEntry] as effect traces;
    - the theorems. *)

From Stdlib Require Import ZArith NArith List Bool Lia String Ascii.
From Stdlib Require Import Floats.SpecFloat.
From stdpp Require Import gmap.
Import ListNotations.

Open Scope Z_scope.

(** ** JavaScript strings

    A JavaScript string is a sequence of UTF-16 code units.  Literals of the
    source are written as Rocq strings and injected with [js]. *)

Module JsString.

Definition t := list N.

Definition js (s : string) : t :=
  List.map N_of_ascii (list_ascii_of_string s).

Definition eqb (a b : t) : bool := bool_decide (a = b).

(** [WhiteSpace] and [LineTerminator] code points, the characters that
    [StrWhiteSpaceChar] of the [StringNumericLiteral] grammar admits:
    TAB, LF, VT, FF, CR, SP, NBSP, the Unicode space separators, LS, PS and
    ZWNBSP. *)
Definition is_white_space (c : N) : bool :=
  (((9 <=? c) && (c <=? 13)) || (c =? 32) || (c =? 160) || (c =? 5760)
   || ((8192 <=? c) && (c <=? 8202)) || (c =? 8232) || (c =? 8233)
   || (c =? 8239) || (c =? 8287) || (c =? 12288) || (c =? 65279))%N.

Fixpoint trim_start (s : t) : t :=
  match s with
  | c :: r => if is_white_space c then trim_start r else s
  | [] => []
  end.

Definition trim (s : t) : t := rev (trim_start (rev (trim_start s))).

End JsString.

Abbreviation jsstring := JsString.t.
Abbreviation js := JsString.js.

(** ** JavaScript numbers

    A Number is an IEEE 754 binary64 value; the Standard Library's
    [spec_float] at precision 53 and maximal exponent 1024 is that format,
    rounding to nearest, ties to even. *)

Module JsNumber.

Definition t := spec_float.

Definition prec : Z := 53.
Definition emax : Z := 1024.

Definition NaN : t := S754_nan.
Definition one : t := SFone prec emax.

(** The Number nearest to the integer [z]. *)
Definition of_Z (z : Z) : t := binary_normalize prec emax z 0 false.

(** The integer a Number is equal to, when it is finite and integral:
    [m * 2^e] with [e >= 0], or with the low [-e] bits of [m] clear. *)
Definition to_Z (x : t) : option Z :=
  match x with
  | S754_zero _ => Some 0
  | S754_finite s m e =>
      let v :=
        if 0 <=? e then Some (Z.pos m * 2 ^ e)
        else if Z.pos m mod 2 ^ (- e) =? 0 then Some (Z.pos m / 2 ^ (- e))
        else None in
      (if s then Z.opp else id) <$> v
  | _ => None
  end.

(** [Number.isInteger(x)] for a Number [x]: finite and equal to its floor. *)
Definition isInteger (x : t) : bool :=
  match to_Z x with Some _ => true | None => false end.

(** The relational operator [x < y] on Numbers, false when either is NaN:
    the two values are compared exactly, both scaled to integers by the
    smaller of the two binary exponents. *)
Definition exponent (x : t) : Z :=
  match x with
  | S754_finite _ _ e => e
  | _ => 0
  end.

Definition scaled (e0 : Z) (x : t) : Z :=
  match x with
  | S754_finite s m e => (if s then Z.opp else id) (Z.pos m * 2 ^ (e - e0))
  | _ => 0
  end.

Definition lt (x y : t) : bool :=
  match x, y with
  | S754_nan, _ | _, S754_nan => false
  | S754_infinity s1, S754_infinity s2 => s1 && negb s2
  | S754_infinity s, _ => s
  | _, S754_infinity s => negb s
  | _, _ =>
      let e0 := Z.min (exponent x) (exponent y) in
      scaled e0 x <? scaled e0 y
  end.

(** Number::toString of an integral Number of magnitude below 10^21: the
    decimal digits of the integer, most significant first, after a minus
    sign when negative.  [digits_of] consumes one unit of fuel per digit. *)
Fixpoint digits_of (fuel : nat) (n : N) (acc : list N) : list N :=
  match fuel with
  | O => acc
  | S f =>
      let acc' := (48 + n mod 10)%N :: acc in
      if (n / 10 =? 0)%N then acc' else digits_of f (n / 10)%N acc'
  end.

Definition decimal (n : N) : list N := digits_of (S (N.to_nat (N.log2 n))) n [].

Definition toString (z : Z) : list N :=
  match z with
  | Z0 => [48%N]
  | Zpos p => decimal (Npos p)
  | Zneg p => 45%N :: decimal (Npos p)
  end.

(** [Number.MAX_SAFE_INTEGER], 2^53 - 1. *)
Definition MAX_SAFE_INTEGER : Z := 9007199254740991.

(** *** [StringToNumber]

    The [StringNumericLiteral] grammar: optional white space on both sides
    of nothing at all (the value is +0), of a signed decimal literal
    ([Infinity], digits with an optional fraction and exponent) or of an
    unsigned binary, octal or hexadecimal integer literal. *)

(** What a literal denotes before rounding: an infinity, or the
    mathematical value [(-1)^neg * m * 10^e10]. *)
Inductive literal :=
| LInfinity (neg : bool)
| LValue (neg : bool) (m : N) (e10 : Z).

Definition digit_of (radix : N) (c : N) : option N :=
  let d :=
    (if (48 <=? c) && (c <=? 57) then Some (c - 48)
     else if (97 <=? c) && (c <=? 102) then Some (c - 87)
     else if (65 <=? c) && (c <=? 70) then Some (c - 55)
     else None)%N in
  match d with
  | Some v => if (v <? radix)%N then Some v else None
  | None => None
  end.

(** Reads the longest prefix of digits in [radix]: the value accumulated
    from [acc], the number of digits read, and the rest of the input. *)
Fixpoint digits (radix : N) (s : jsstring) (acc : N) (n : nat)
  : N * nat * jsstring :=
  match s with
  | c :: r =>
      match digit_of radix c with
      | Some d => digits radix r (acc * radix + d)%N (S n)
      | None => (acc, n, s)
      end
  | [] => (acc, n, [])
  end.

(** [ExponentPart], optional: [e] or [E], an optional sign, and at least
    one decimal digit, up to the end of the input. *)
Definition exponent_part (s : jsstring) : option Z :=
  match s with
  | [] => Some 0
  | c :: r =>
      if ((c =? 101) || (c =? 69))%N then
        let '(neg, r') :=
          match r with
          | 43%N :: r' => (false, r')
          | 45%N :: r' => (true, r')
          | _ => (false, r)
          end in
        match digits 10 r' 0 0 with
        | (v, S _, []) => Some (if neg then - Z.of_N v else Z.of_N v)
        | _ => None
        end
      else None
  end.

(** [StrUnsignedDecimalLiteral]. *)
Definition unsigned_decimal (neg : bool) (s : jsstring) : option literal :=
  if JsString.eqb s (js "Infinity") then Some (LInfinity neg)
  else
    let '(ip, n1, r1) := digits 10 s 0 0 in
    match r1 with
    | 46%N :: r2 =>
        let '(m, n2, r3) := digits 10 r2 ip 0 in
        match (n1 + n2)%nat with
        | O => None
        | S _ =>
            e ← exponent_part r3;
            Some (LValue neg m (e - Z.of_nat n2))
        end
    | _ =>
        match n1 with
        | O => None
        | S _ => e ← exponent_part r1; Some (LValue neg ip e)
        end
    end.

(** [NonDecimalIntegerLiteral]: [0b], [0o] or [0x] (either case) and at
    least one digit of that radix, nothing after; no sign. *)
Definition non_decimal (s : jsstring) : option literal :=
  match s with
  | 48%N :: p :: r =>
      let radix :=
        (if (p =? 120) || (p =? 88) then Some 16
         else if (p =? 111) || (p =? 79) then Some 8
         else if (p =? 98) || (p =? 66) then Some 2
         else None)%N in
      match radix with
      | Some b =>
          match digits b r 0 0 with
          | (v, S _, []) => Some (LValue false v 0)
          | _ => None
          end
      | None => None
      end
  | _ => None
  end.

Definition parse (s : jsstring) : option literal :=
  match JsString.trim s with
  | [] => Some (LValue false 0 0)
  | t =>
      match non_decimal t with
      | Some l => Some l
      | None =>
          match t with
          | 43%N :: r => unsigned_decimal false r
          | 45%N :: r => unsigned_decimal true r
          | _ => unsigned_decimal false t
          end
      end
  end.

(** The Number value of a literal: the binary64 nearest to its
    mathematical value.  [m * 10^e] is an integer when [e >= 0]; otherwise
    it is the quotient of two integers, rounded once. *)
Definition round (l : literal) : t :=
  match l with
  | LInfinity neg => S754_infinity neg
  | LValue neg 0%N _ => S754_zero neg
  | LValue neg (Npos p) e =>
      if 0 <=? e then binary_round prec emax neg (p * Z.to_pos (10 ^ e))%positive 0
      else SFdiv prec emax (S754_finite neg p 0)
                           (S754_finite false (Z.to_pos (10 ^ (- e))) 0)
  end.

(** [StringToNumber]: NaN when the string is no [StringNumericLiteral];
    otherwise the literal is rounded correctly, whatever its length. *)
Definition of_string (s : jsstring) : t :=
  match parse s with
  | Some l => round l
  | None => NaN
  end.

End JsNumber.


(** ** JavaScript values and the operators the handlers apply to them *)

Inductive value :=
| VUndefined
| VString (s : jsstring)
| VNumber (x : JsNumber.t).

(** [ToNumber]: the conversion behind [Number(v)] and unary [+v]. *)
Definition ToNumber (v : value) : JsNumber.t :=
  match v with
  | VUndefined => JsNumber.NaN
  | VString s => JsNumber.of_string s
  | VNumber x => x
  end.

Definition Number (v : value) : JsNumber.t := ToNumber v.

Definition unary_plus (v : value) : JsNumber.t := ToNumber v.

(** [Number.isNaN(v)]: no coercion; true only of the Number NaN. *)
Definition Number_isNaN (v : value) : bool :=
  match v with
  | VNumber S754_nan => true
  | _ => false
  end.

(** [Number.isInteger(v)]: no coercion; false unless [v] is a Number. *)
Definition Number_isInteger (v : value) : bool :=
  match v with
  | VNumber x => JsNumber.isInteger x
  | _ => false
  end.

(** [ToBoolean]: undefined, the empty string, zeros and NaN are falsy. *)
Definition ToBoolean (v : value) : bool :=
  match v with
  | VUndefined => false
  | VString [] => false
  | VString (_ :: _) => true
  | VNumber (S754_zero _) => false
  | VNumber S754_nan => false
  | VNumber _ => true
  end.

(** The operator [!v]. *)
Definition not (v : value) : bool := negb (ToBoolean v).

(** A property that may be absent reads as [undefined]. *)
Definition read (p : option jsstring) : value :=
  match p with
  | Some s => VString s
  | None => VUndefined
  end.

(** ** Entries

    A row of the [entries] table, and the JSON object the API returns. *)

Record Entry := {
  entryId : Z;
  title : jsstring;
  notes : jsstring;
  photoUrl : jsstring
}.

#[global] Instance Entry_eq_dec : EqDecision Entry.
Proof. solve_decision. Defined.

(** ** The store

    The database behind [db.query]: one table and the five statements that
    [server.ts] sends to it. *)

Module Store.

(** Modelled from the spec: the schema of the [entries] table is not part
    of the sources.  The spec gives one relational table
    [entries(entryId PK auto-generated, title, notes, photoUrl)] whose
    [entryId] is an integer generated by the store, unique, the first one
    being 1.  The table is the list of its rows and the generator a counter
    that holds the last id it handed out. *)
Record t := {
  rows : list Entry;
  last_id : Z
}.

Definition empty : t := {| rows := []; last_id := 0 |}.

(** A query parameter as the handler passes it: text or a Number. *)
Inductive param :=
| PText (s : jsstring)
| PNumber (x : JsNumber.t).

(** Modelled from the spec: how the store reads a parameter is not part of
    the sources.  The spec gives [entryId] as an integer and addresses a row
    by the decimal numeral of its id ([GET /api/entries/1]); it says nothing
    of other spellings or of a range.  The blanks skipped around a numeral:
    space, TAB, LF, VT, FF, CR. *)
Definition is_space (c : N) : bool :=
  ((c =? 32) || ((9 <=? c) && (c <=? 13)))%N.

Fixpoint skip_spaces (s : jsstring) : jsstring :=
  match s with
  | c :: r => if is_space c then skip_spaces r else s
  | [] => []
  end.

(** Modelled from the spec: the store and its integer input are not part of
    the sources.  A text parameter compared with the integer column stands
    for the integer its decimal numeral writes: blanks, an optional sign,
    decimal digits, blanks.  This is the spec's way of naming a row
    ([/api/entries/1]); any other text is rejected here, and no range is
    set, where the spec is silent: a real store may read more spellings
    and fewer magnitudes. *)
Definition int_of_text (s : jsstring) : option Z :=
  let s1 := skip_spaces s in
  let '(neg, s2) :=
    match s1 with
    | 45%N :: r => (true, r)
    | 43%N :: r => (false, r)
    | _ => (false, s1)
    end in
  match JsNumber.digits 10 s2 0 0 with
  | (v, S _, r) =>
      if forallb is_space r
      then Some (if neg then - Z.of_N v else Z.of_N v)
      else None
  | (_, O, _) => None
  end.

(** Modelled from the spec: the store's reading of a statement parameter is
    not part of the sources.  The integer a parameter stands for in
    ["entryId" = $n]: the spec's [entryId] is an integer with no range
    given, so none is set here, where a real column has one.  A Number is
    sent in its text form, which is the row of digits only for an integral
    Number of magnitude below 10^21. *)
Definition int_of_param (p : param) : option Z :=
  match p with
  | PText s => int_of_text s
  | PNumber x =>
      z ← JsNumber.to_Z x;
      if Z.abs z <? 10 ^ 21 then Some z else None
  end.

(** The statements of [server.ts], each with its parameter list. *)
Inductive query :=
| SelectAll
    (* select * from entries; *)
| SelectById (id : param)
    (* select * from entries where "entryId" = $1; *)
| Insert (title notes photoUrl : jsstring)
    (* insert into entries ("title", "notes", "photoUrl")
       values ($1, $2, $3) returning *; *)
| UpdateById (title notes photoUrl : jsstring) (id : param)
    (* update entries set "title" = $1, "notes" = $2, "photoUrl" = $3
       where "entryId" = $4 returning *; *)
| DeleteById (id : param).
    (* delete from entries where "entryId" = $1 returning *; *)

(** [set "title" = $1, "notes" = $2, "photoUrl" = $3] on one row. *)
Definition assign (t n p : jsstring) (r : Entry) : Entry :=
  {| entryId := entryId r; title := t; notes := n; photoUrl := p |}.

(** What [db.query] resolves to: the rows of the result, or a rejection. *)
Inductive result :=
| Rows (l : list Entry)
| Rejected.

(** Modelled from the spec: the statements run against the table above.  A
    [where "entryId" = $n] selects the rows of that id and is rejected when
    the parameter is no integer; [insert] appends a row under the next id
    of the generator; [update] assigns the three columns on the selected
    rows; [delete] removes them; [returning *] gives back the rows written
    or removed. *)
Definition exec (q : query) (st : t) : result * t :=
  match q with
  | SelectAll => (Rows (rows st), st)
  | SelectById id =>
      match int_of_param id with
      | Some k => (Rows (filter (λ r, entryId r = k) (rows st)), st)
      | None => (Rejected, st)
      end
  | Insert t n p =>
      let r := {| entryId := last_id st + 1;
                  title := t; notes := n; photoUrl := p |} in
      (Rows [r], {| rows := rows st ++ [r]; last_id := last_id st + 1 |})
  | UpdateById t n p id =>
      match int_of_param id with
      | Some k =>
          let rows' :=
            (λ r, if decide (entryId r = k) then assign t n p r else r)
              <$> rows st in
          (Rows (filter (λ r, entryId r = k) rows'),
           {| rows := rows'; last_id := last_id st |})
      | None => (Rejected, st)
      end
  | DeleteById id =>
      match int_of_param id with
      | Some k =>
          (Rows (filter (λ r, entryId r = k) (rows st)),
           {| rows := filter (λ r, entryId r ≠ k) (rows st);
              last_id := last_id st |})
      | None => (Rejected, st)
      end
  end.

(** The primary key and the generator: ids are positive, pairwise distinct,
    and were all handed out by the counter. *)
Definition wf (st : t) : Prop :=
  NoDup (entryId <$> rows st) ∧
  0 ≤ last_id st ∧
  ∀ r, r ∈ rows st → 1 ≤ entryId r ≤ last_id st.

(** An id that was handed out and whose row is gone. *)
Definition retired (k : Z) (st : t) : Prop :=
  k ≤ last_id st ∧ ∀ r, r ∈ rows st → entryId r ≠ k.

Definition lookup (k : Z) (st : t) : option Entry :=
  head (filter (λ r, entryId r = k) (rows st)).

End Store.

(** ** The server (server/server.ts) *)

Module Server.

(** What a handler throws: a [ClientError], or whatever [db.query] rejected
    with. *)
Inductive error :=
| ClientError (status : Z) (message : jsstring)
| StoreError.

(** The body of a response, as passed to [res.json]. *)
Inductive json :=
| JEntry (e : Entry)
| JEntries (l : list Entry)
| JError (message : jsstring).

Record response := {
  status : Z;
  body : json
}.

(** A handler runs against the store and leaves a log of the statements it
    sent with [db.query]. *)
Record world := {
  db : Store.t;
  log : list Store.query
}.

Definition M (A : Type) : Type := world → (error + A) * world.

#[global] Instance M_ret : MRet M := λ A a w, (inr a, w).

#[global] Instance M_bind : MBind M := λ A B f m w,
  match m w with
  | (inl e, w') => (inl e, w')
  | (inr a, w') => f a w'
  end.

Definition throw {A} (e : error) : M A := λ w, (inl e, w).

(** [(await db.query(sql, params)).rows] *)
Definition db_query (q : Store.query) : M (list Entry) := λ w,
  let '(r, st) := Store.exec q (db w) in
  let w' := {| db := st; log := log w ++ [q] |} in
  match r with
  | Store.Rows l => (inr l, w')
  | Store.Rejected => (inl StoreError, w')
  end.

(** The request body after [express.json()]: an object, read at the type
    the handlers declare for it ([Entries]: three strings), each property
    possibly absent; [body_entryId] is the extra property the client's
    update sends along.  Properties of other JSON types are outside this
    type. *)
Record Body := {
  body_entryId : option Z;
  body_title : option jsstring;
  body_notes : option jsstring;
  body_photoUrl : option jsstring
}.

(** A string the handler has tested to be truthy. *)
Definition text (p : option jsstring) : jsstring := default [] p.

(** [app.get('/api/entries', ...)] *)
Definition get_entries : M response :=
  entries ← db_query Store.SelectAll;
  mret {| status := 200; body := JEntries entries |}.

(** [app.get('/api/entries/:entryId', ...)] *)
Definition get_entry (entryId : jsstring) : M response :=
  if Number_isNaN (VString entryId)
     || negb (Number_isInteger (VNumber (unary_plus (VString entryId))))
     || JsNumber.lt (Number (VString entryId)) JsNumber.one
  then throw (ClientError 400 (js "Invalid entryId."))
  else
    rows ← db_query (Store.SelectById (Store.PNumber (Number (VString entryId))));
    match rows with
    | [] =>
        throw (ClientError 404
                 (js "entryId " ++ entryId ++ js " does not exist."))
    | entry :: _ => mret {| status := 200; body := JEntry entry |}
    end.

(** [app.post('/api/entries', ...)] *)
Definition post_entry (b : Body) : M response :=
  let title := body_title b in
  let notes := body_notes b in
  let photoUrl := body_photoUrl b in
  if not (read title) || not (read notes) || not (read photoUrl)
  then throw (ClientError 400 (js "title, notes and photoUrl is required."))
  else
    rows ← db_query (Store.Insert (text title) (text notes) (text photoUrl));
    match rows with
    | [] => throw (ClientError 404 (js "Invalid entry"))
    | entry :: _ => mret {| status := 201; body := JEntry entry |}
    end.

(** [app.put('/api/entries/:entryId', ...)] *)
Definition put_entry (entryId : jsstring) (b : Body) : M response :=
  let title := body_title b in
  let notes := body_notes b in
  let photoUrl := body_photoUrl b in
  if Number_isNaN (VString entryId)
     || negb (Number_isInteger (VNumber (unary_plus (VString entryId))))
     || JsNumber.lt (Number (VString entryId)) JsNumber.one
  then throw (ClientError 400 (js "Invalid entryId."))
  else if not (read title) || not (read notes) || not (read photoUrl)
  then throw (ClientError 400 (js "title, notes and photoUrl is required."))
  else
    rows ← db_query (Store.UpdateById (text title) (text notes) (text photoUrl)
                       (Store.PNumber (Number (VString entryId))));
    match rows with
    | [] => throw (ClientError 404 (js "invalid entry."))
    | entry :: _ => mret {| status := 201; body := JEntry entry |}
    end.

(** [app.delete('/api/entries/:entryId', ...)]; the parameter of the
    statement is the path string itself. *)
Definition delete_entry (entryId : jsstring) : M response :=
  if Number_isNaN (VString entryId)
     || negb (Number_isInteger (VNumber (unary_plus (VString entryId))))
     || JsNumber.lt (Number (VString entryId)) JsNumber.one
  then throw (ClientError 400 (js "Invalid entryId."))
  else
    rows ← db_query (Store.DeleteById (Store.PText entryId));
    match rows with
    | [] =>
        throw (ClientError 404
                 (js "entryId " ++ entryId ++ js " does not exists."))
    | entry :: _ => mret {| status := 200; body := JEntry entry |}
    end.

(** Modelled from the spec: [errorMiddleware] of [lib/index.js] is not part
    of the sources.  A client error is reported with the status code and
    message it carries; anything else is a generic 500. *)
Definition errorMiddleware (e : error) : response :=
  match e with
  | ClientError s m => {| status := s; body := JError m |}
  | StoreError =>
      {| status := 500; body := JError (js "an unexpected error occurred") |}
  end.

(** One request: [try { ... } catch (err) { next(err) }] around the handler,
    with [errorMiddleware] installed last. *)
Record outcome := {
  sent : response;
  store : Store.t;
  queries : list Store.query
}.

Definition serve (h : M response) (st : Store.t) : outcome :=
  let '(r, w) := h {| db := st; log := [] |} in
  {| sent := match r with inr res => res | inl e => errorMiddleware e end;
     store := db w;
     queries := log w |}.

(** The five routes, and a session of requests served one after the other. *)
Inductive request :=
| GET_entries
| GET_entry (entryId : jsstring)
| POST_entry (b : Body)
| PUT_entry (entryId : jsstring) (b : Body)
| DELETE_entry (entryId : jsstring).

Definition route (r : request) : M response :=
  match r with
  | GET_entries => get_entries
  | GET_entry s => get_entry s
  | POST_entry b => post_entry b
  | PUT_entry s b => put_entry s b
  | DELETE_entry s => delete_entry s
  end.

Fixpoint run (rs : list request) (st : Store.t) : Store.t :=
  match rs with
  | [] => st
  | r :: rs' => run rs' (store (serve (route r) st))
  end.

End Server.

(** ** The entry form (the [EntryForm] component)

    The submit path of the component: [handleSubmit], [addEntry] and
    [updateEntry], with the state cells and the three views of the render.
    An event handler is the list of effects it performs, in order.  A call
    of an [async] function that is not awaited contributes the effects up to
    its first [await]; what it does once the awaited [fetch] has settled is
    kept as a continuation that settles the promise the call returned. *)

Module Client.

Inductive method := POST | PUT.

Record request := {
  method_ : method;
  url : jsstring;
  payload : Server.Body
}.

(** What [fetch] settles with: a rejection, or the response of the server. *)
Inductive fetched :=
| NetworkError
| Responded (res : Server.response).

(** [res.ok] *)
Definition ok (status : Z) : bool := (200 <=? status) && (status <=? 299).

Inductive settled :=
| Fulfilled
| RejectedWith (message : jsstring).

Inductive effect :=
| PreventDefault
| Fetch (r : request)
| Navigate (to : jsstring)
| SetIsLoading (b : bool)
| SetEntry (e : Entry)
| SetPhotoUrl (p : jsstring)
| SetError (message : jsstring)
| SetIsDeleting (b : bool)
| UnhandledRejection (message : jsstring).

(** The [useState] cells of the component; [error] holds the message of
    what was caught. *)
Record state := {
  entry : option Entry;
  photoUrl_ : option jsstring;
  isLoading : bool;
  error : option jsstring;
  isDeleting : bool
}.

Definition initial : state :=
  {| entry := None; photoUrl_ := None; isLoading := false;
     error := None; isDeleting := false |}.

(** The effect of one setter on the cells; the other effects leave them. *)
Definition reduce (s : state) (e : effect) : state :=
  match e with
  | SetIsLoading b =>
      {| entry := entry s; photoUrl_ := photoUrl_ s; isLoading := b;
         error := error s; isDeleting := isDeleting s |}
  | SetEntry x =>
      {| entry := Some x; photoUrl_ := photoUrl_ s; isLoading := isLoading s;
         error := error s; isDeleting := isDeleting s |}
  | SetPhotoUrl p =>
      {| entry := entry s; photoUrl_ := Some p; isLoading := isLoading s;
         error := error s; isDeleting := isDeleting s |}
  | SetError m =>
      {| entry := entry s; photoUrl_ := photoUrl_ s; isLoading := isLoading s;
         error := Some m; isDeleting := isDeleting s |}
  | SetIsDeleting b =>
      {| entry := entry s; photoUrl_ := photoUrl_ s; isLoading := isLoading s;
         error := error s; isDeleting := b |}
  | _ => s
  end.

(** What the component renders: the loading line, the error line with its
    message, or the form. *)
Inductive view :=
| Loading
| ErrorLoading (message : jsstring)
| Form.

Definition render (s : state) : view :=
  if isLoading s then Loading
  else match error s with
       | Some m => ErrorLoading m
       | None => Form
       end.

(** An [async] function with one [await]. *)
Record async := {
  started : list effect;
  resumed : fetched → list effect * settled
}.

(** [const isEditing = entryId && entryId !== 'new'], as a condition. *)
Definition isEditing (entryId : option jsstring) : bool :=
  ToBoolean (read entryId) && negb (bool_decide (entryId = Some (js "new"))).

(** A route parameter inside a template literal. *)
Definition interpolate (entryId : option jsstring) : jsstring :=
  match entryId with
  | Some s => s
  | None => js "undefined"
  end.

(** The fields of the submitted form: [Object.fromEntries(formData)] over
    the controls named [title], [photoUrl] and [notes]. *)
Record form := {
  form_title : jsstring;
  form_photoUrl : jsstring;
  form_notes : jsstring
}.

Definition newEntry (f : form) : Server.Body :=
  {| Server.body_entryId := None;
     Server.body_title := Some (form_title f);
     Server.body_notes := Some (form_notes f);
     Server.body_photoUrl := Some (form_photoUrl f) |}.

(** [{ ...entry, ...newEntry }]: the loaded entry, if any, with the three
    form fields written over it. *)
Definition spread (e : option Entry) (n : Server.Body) : Server.Body :=
  {| Server.body_entryId :=
       match Server.body_entryId n with
       | Some i => Some i
       | None => entryId <$> e
       end;
     Server.body_title :=
       match Server.body_title n with
       | Some s => Some s
       | None => title <$> e
       end;
     Server.body_notes :=
       match Server.body_notes n with
       | Some s => Some s
       | None => notes <$> e
       end;
     Server.body_photoUrl :=
       match Server.body_photoUrl n with
       | Some s => Some s
       | None => photoUrl <$> e
       end |}.

(** What both [updateEntry] and [addEntry] do after [await fetch(...)]: a
    rejected fetch and a response that is not [ok] end in the [catch], which
    throws again. *)
Definition after_save (r : fetched) : list effect * settled :=
  match r with
  | Responded res =>
      if ok (Server.status res) then ([], Fulfilled)
      else ([], RejectedWith (js "Failed to add entry. Please try again."))
  | NetworkError =>
      ([], RejectedWith (js "Failed to add entry. Please try again."))
  end.

Definition updateEntry (entryId : option jsstring) (e : Server.Body) : async :=
  {| started :=
       [Fetch {| method_ := PUT;
                 url := js "/api/entries/" ++ interpolate entryId;
                 payload := e |}];
     resumed := after_save |}.

Definition addEntry (e : Server.Body) : async :=
  {| started :=
       [Fetch {| method_ := POST; url := js "/api/entries";
                 payload := e |}];
     resumed := after_save |}.

(** [handleSubmit(event)]: its effects, and the call it leaves pending. *)
Definition handleSubmit (entryId : option jsstring) (s : state) (f : form)
  : list effect * async :=
  let call :=
    if isEditing entryId
    then updateEntry entryId (spread (entry s) (newEntry f))
    else addEntry (newEntry f) in
  ([PreventDefault] ++ started call ++ [Navigate (js "/")], call).

(** A call that nobody awaits: its continuation runs when the fetch has
    settled, and a rejection of its promise has no handler. *)
Definition floating (a : async) (r : fetched) : list effect :=
  let '(es, p) := resumed a r in
  es ++ match p with
        | Fulfilled => []
        | RejectedWith m => [UnhandledRejection m]
        end.

(** A submit from the click to the settling of the request it started. *)
Definition submit (entryId : option jsstring) (s : state) (f : form)
    (r : fetched) : list effect :=
  let '(es, call) := handleSubmit entryId s f in
  es ++ floating call r.

End Client.

(** ** The entry form, continued: loading, deleting and the controls

    [load] and the effect that calls it, [handleDelete], the handlers
    written inline in the JSX, and which controls the component puts on
    screen. *)

Module Form.

Inductive verb := GET | DELETE.

(** What these handlers do: an effect of the submit path, a request that
    carries no body, or a line on the console. *)
Inductive action :=
| Do (e : Client.effect)
| FetchUrl (v : verb) (url : jsstring)
| ConsoleLog (data : Entry).

Definition reduce (s : Client.state) (a : action) : Client.state :=
  match a with
  | Do e => Client.reduce s e
  | _ => s
  end.

(** What [load] gets from its two awaits: a rejected [fetch] with the
    message of the rejection, or a response with its status and what
    [res.json()] settles with, a rejection with its message or the body
    read at the type [Entry]. *)
Inductive arrival :=
| Lost (message : jsstring)
| Arrived (status : Z) (data : jsstring + Entry).

(** [load(id)].  [show] is the text of a Number inside a template literal.
    Everything thrown in the [try] is caught, so the promise of the call
    fulfils. *)
Definition load (show : JsNumber.t → jsstring) (id : JsNumber.t)
  : list action * (arrival → list action) :=
  ([Do (Client.SetIsLoading true);
    FetchUrl GET (js "/api/entries/" ++ show id)],
   λ a,
     match a with
     | Lost m => [Do (Client.SetError m)]
     | Arrived status data =>
         if Client.ok status then
           match data with
           | inr entry =>
               [ConsoleLog entry; Do (Client.SetEntry entry);
                Do (Client.SetPhotoUrl (photoUrl entry))]
           | inl m => [Do (Client.SetError m)]
           end
         else
           [Do (Client.SetError
                  (js "Entry with ID " ++ show id ++ js " not found. ("
                   ++ JsNumber.toString status ++ js ")"))]
     end ++ [Do (Client.SetIsLoading false)]).

(** The effect on [entryId]: [if (isEditing) load(+entryId)], from the call
    to the settling of what it awaits. *)
Definition loading (show : JsNumber.t → jsstring) (entryId : option jsstring)
    (a : arrival) : list action :=
  if Client.isEditing entryId
  then let '(es, k) := load show (unary_plus (read entryId)) in es ++ k a
  else [].

(** [handleDelete()], an [async] handler nobody awaits: a [throw] ends as a
    rejection without a handler. *)
Definition handleDelete (s : Client.state)
  : list action * (Client.fetched → list action) :=
  match Client.entry s with
  | Some e =>
      if entryId e =? 0
      then ([Do (Client.UnhandledRejection (js "Should never happen"))], λ _, [])
      else
        ([FetchUrl DELETE (js "/api/entries/" ++ JsNumber.toString (entryId e))],
         λ r,
           match r with
           | Client.Responded res =>
               if Client.ok (Server.status res)
               then [Do (Client.Navigate (js "/"))]
               else [Do (Client.UnhandledRejection
                           (js "Failed to delete an entry. entryId may not exist."))]
           | Client.NetworkError =>
               [Do (Client.UnhandledRejection
                      (js "Failed to delete an entry. entryId may not exist."))]
           end)
  | None => ([Do (Client.UnhandledRejection (js "Should never happen"))], λ _, [])
  end.

(** A click on Confirm, from the call to the settling of its request. *)
Definition deleting (s : Client.state) (r : Client.fetched) : list action :=
  let '(es, k) := handleDelete s in es ++ k r.

(** What the user can do to the form; a submit and a confirmation come with
    what their request settles with. *)
Inductive event :=
| Submit (f : Client.form) (r : Client.fetched)
| ChangePhotoUrl (v : jsstring)
| ClickDelete
| ClickCancel
| ClickConfirm (r : Client.fetched).

(** The three controls of the form are [required]: it submits only when
    none of them is empty. *)
Definition filled (f : Client.form) : bool :=
  negb (bool_decide (Client.form_title f = []))
  && negb (bool_decide (Client.form_photoUrl f = []))
  && negb (bool_decide (Client.form_notes f = [])).

(** The controls on screen: none while the loading or the error line is
    shown; the Delete button when editing; Cancel and Confirm while the
    modal is open. *)
Definition enabled (entryId : option jsstring) (s : Client.state) (ev : event)
  : bool :=
  match Client.render s with
  | Client.Form =>
      match ev with
      | Submit f _ => filled f
      | ChangePhotoUrl _ => true
      | ClickDelete => Client.isEditing entryId
      | ClickCancel | ClickConfirm _ => Client.isDeleting s
      end
  | _ => false
  end.

Definition handle (entryId : option jsstring) (s : Client.state) (ev : event)
  : list action :=
  match ev with
  | Submit f r => Do <$> Client.submit entryId s f r
  | ChangePhotoUrl v => [Do (Client.SetPhotoUrl v)]
  | ClickDelete => [Do (Client.SetIsDeleting true)]
  | ClickCancel => [Do (Client.SetIsDeleting false)]
  | ClickConfirm r => deleting s r
  end.

(** A row of events on one form: an event whose control is not on screen
    does nothing; the others run their handler on the cells as the handlers
    before them left them. *)
Fixpoint play (entryId : option jsstring) (s : Client.state) (evs : list event)
  : list action :=
  match evs with
  | [] => []
  | ev :: rest =>
      if enabled entryId s ev
      then handle entryId s ev
           ++ play entryId (fold_left reduce (handle entryId s ev) s) rest
      else play entryId s rest
  end.

End Form.

(** ** Vocabulary of the statements *)

(** A Number that is an integer greater than or equal to 1. *)
Definition positive_integer (x : JsNumber.t) : Prop :=
  ∃ n, JsNumber.to_Z x = Some n ∧ 1 ≤ n.

(** A path string read as a numeral, exactly: it is a numeric literal whose
    mathematical value, before any rounding, is an integer greater than or
    equal to 1.  Strings that are no literal, literals of value zero,
    negative literals, infinities and literals with a fractional part are
    the ones that do not denote a positive integer. *)
Definition denotes_positive_integer (s : jsstring) : bool :=
  match JsNumber.parse s with
  | Some (JsNumber.LValue false m e) =>
      (0 <? m)%N && ((0 <=? e) || (Z.of_N m mod 10 ^ (- e) =? 0))
  | _ => false
  end.

(** A numeral with a fractional part: digits after the point, or a negative
    exponent, that leave its value between two integers. *)
Definition fractional (s : jsstring) : bool :=
  match JsNumber.parse s with
  | Some (JsNumber.LValue _ m e) =>
      negb (0 <=? e) && negb (Z.of_N m mod 10 ^ (- e) =? 0)
  | _ => false
  end.

(** A field of the body that is missing or empty. *)
Definition missing_or_empty (p : option jsstring) : Prop :=
  p = None ∨ p = Some [].

(** A field of the body that carries a non-empty string. *)
Definition present (p : option jsstring) (s : jsstring) : Prop :=
  p = Some s ∧ s ≠ [].

(** The response to a path parameter that failed validation. *)
Definition invalid_entryId : Server.response :=
  {| Server.status := 400; Server.body := Server.JError (js "Invalid entryId.") |}.

(** Decimal digits, and the value of a row of them read left to right. *)
Definition is_digit (c : N) : Prop := (48 ≤ c ≤ 57)%N.

Definition step (a c : N) : N := (a * 10 + (c - 48))%N.

(** The row the store makes of a create request. *)
Definition created (st : Store.t) (t n p : jsstring) : Entry :=
  {| entryId := Store.last_id st + 1; title := t; notes := n; photoUrl := p |}.

(** The example of the contract: the body of a create request, the entry
    made of it in an empty store, and the store that holds it. *)
Definition trip_body : Server.Body :=
  {| Server.body_entryId := None;
     Server.body_title := Some (js "Trip");
     Server.body_notes := Some (js "Fun");
     Server.body_photoUrl := Some (js "http://x/y.jpg") |}.

Definition trip : Entry :=
  {| entryId := 1; title := js "Trip"; notes := js "Fun";
     photoUrl := js "http://x/y.jpg" |}.

Definition trip_store : Store.t :=
  {| Store.rows := [trip]; Store.last_id := 1 |}.

(** A body with an id of its own and three other values. *)
Definition hike_body : Server.Body :=
  {| Server.body_entryId := Some 7;
     Server.body_title := Some (js "Hike");
     Server.body_notes := Some (js "Wet");
     Server.body_photoUrl := Some (js "z") |}.

(** A body whose [notes] is empty and whose [photoUrl] is missing. *)
Definition partial_body : Server.Body :=
  {| Server.body_entryId := None;
     Server.body_title := Some (js "Trip");
     Server.body_notes := Some [];
     Server.body_photoUrl := None |}.


(** The largest id a 32-bit integer column holds. *)
Definition INT32_MAX : Z := 2147483647.

(** A request that reads or creates: the list, a get, a create. *)
Definition reads_or_creates (r : Server.request) : bool :=
  match r with
  | Server.GET_entries | Server.GET_entry _ | Server.POST_entry _ => true
  | Server.PUT_entry _ _ | Server.DELETE_entry _ => false
  end.

(** The cells after a row of loads, each under its route and with what it
    got. *)
Definition reloaded (show : JsNumber.t → jsstring) (s : Client.state)
    (loads : list (option jsstring * Form.arrival)) : Client.state :=
  fold_left (λ s l, fold_left Form.reduce (Form.loading show l.1 l.2) s) loads s.

(** * Properties *)

(** ** Rounding of small integers

    An integer below 2^53 is a Number: rounding shifts its mantissa up to 53
    bits and loses nothing. *)

Section Rounding.

Lemma digits2_pos_size p : digits2_pos p = Pos.size p.
Proof. induction p; simpl; congruence. Qed.

Lemma digits2_pos_iter p k :
  digits2_pos (Pos.iter xO p k) = (digits2_pos p + k)%positive.
Proof.
  induction k using Pos.peano_ind.
  - simpl. lia.
  - rewrite Pos.iter_succ. simpl. rewrite IHk. lia.
Qed.

Lemma Zpos_iter p k : Z.pos (Pos.iter xO p k) = Z.pos p * 2 ^ Z.pos k.
Proof.
  induction k using Pos.peano_ind.
  - simpl. lia.
  - rewrite Pos.iter_succ, Pos2Z.inj_xO, IHk, Pos2Z.inj_succ, Z.pow_succ_r by lia. lia.
Qed.

Lemma digits2_pos_bound p : Z.pos p < 2 ^ 53 → Z.pos (digits2_pos p) ≤ 53.
Proof.
  intros Hp. rewrite digits2_pos_size.
  destruct (Z_le_gt_dec (Z.pos (Pos.size p)) 53) as [|Hgt]; [done|exfalso].
  pose proof (Pos.size_le p) as Hle.
  assert (2 ^ 54 ≤ Z.pos (2 ^ Pos.size p)).
  { rewrite Pos2Z.inj_pow. apply Z.pow_le_mono_r; lia. }
  lia.
Qed.

(** Rounding an integer below 2^53: the mantissa is shifted up to 53 bits and nothing is lost. *)
Lemma binary_round_small s p :
  Z.pos p < 2 ^ 53 →
  let d := Z.pos (digits2_pos p) in
  binary_round JsNumber.prec JsNumber.emax s p 0 =
  S754_finite s (Z.to_pos (Z.pos p * 2 ^ (53 - d))) (d - 53).
Proof.
  intros Hp d. pose proof (digits2_pos_bound p Hp) as Hd. fold d in Hd.
  unfold binary_round, shl_align, fexp, emin, JsNumber.prec, JsNumber.emax.
  rewrite Z.add_0_r. fold d.
  rewrite Z.max_l by lia. rewrite Z.sub_0_r.
  destruct (d - 53) as [|q|q] eqn:Hq; [|lia|].
  - (* d = 53 *)
    unfold binary_round_aux, shr_fexp, fexp, emin. simpl Zdigits2. fold d.
    rewrite Z.add_0_r, Z.max_l by lia. replace (d - 53 - 0) with 0 by lia.
    cbn [shr shr_record_of_loc shr_m loc_of_shr_record round_nearest_even Zdigits2].
    fold d. rewrite Z.add_0_r, Z.max_l by lia. replace (d - 53 - 0) with 0 by lia.
    cbn [shr shr_m]. replace (53 - d) with 0 by lia. 
    rewrite Z.pow_0_r, Z.mul_1_r. simpl. done.
  - unfold binary_round_aux, shr_fexp, fexp, emin.
    cbn [Zdigits2]. rewrite digits2_pos_iter.
    replace (Z.pos (digits2_pos p + q) + Z.neg q) with d by (unfold d; lia).
    rewrite Z.max_l by lia. replace (d - 53 - Z.neg q) with 0 by lia.
    cbn [shr shr_record_of_loc shr_m loc_of_shr_record round_nearest_even Zdigits2].
    rewrite digits2_pos_iter.
    replace (Z.pos (digits2_pos p + q) + Z.neg q) with d by (unfold d; lia).
    rewrite Z.max_l by lia. replace (d - 53 - Z.neg q) with 0 by lia.
    cbn [shr shr_m].
    replace (Z.neg q <=? 1024 - 53) with true by (symmetry; apply Z.leb_le; lia).
    f_equal. replace (53 - d) with (Z.pos q) by lia.
    rewrite <- Zpos_iter. done.
Qed.

Lemma to_Z_small s p :
  Z.pos p < 2 ^ 53 →
  JsNumber.to_Z (binary_round JsNumber.prec JsNumber.emax s p 0) =
  Some (if s then Z.neg p else Z.pos p).
Proof.
  intros Hp. rewrite binary_round_small by done.
  pose proof (digits2_pos_bound p Hp) as Hd.
  set (d := Z.pos (digits2_pos p)) in *.
  assert (0 < 2 ^ (53 - d)) by (apply Z.pow_pos_nonneg; lia).
  unfold JsNumber.to_Z.
  rewrite Z2Pos.id by lia.
  destruct (Z.leb_spec 0 (d - 53)).
  - replace (53 - d) with 0 by lia. replace (d - 53) with 0 by lia.
    rewrite Z.pow_0_r, !Z.mul_1_r. by destruct s.
  - replace (- (d - 53)) with (53 - d) by lia.
    rewrite Z.mod_mul by lia. simpl.
    rewrite Z.div_mul by lia. by destruct s.
Qed.

Lemma lt_one_small p :
  Z.pos p < 2 ^ 53 →
  JsNumber.lt (binary_round JsNumber.prec JsNumber.emax false p 0) JsNumber.one
  = false.
Proof.
  intros Hp. rewrite binary_round_small by done.
  pose proof (digits2_pos_bound p Hp) as Hd.
  set (d := Z.pos (digits2_pos p)) in *.
  assert (1 ≤ d) by (unfold d; lia).
  change JsNumber.one with (S754_finite false 4503599627370496 (-52)).
  unfold JsNumber.lt, JsNumber.scaled, JsNumber.exponent.
  rewrite Z.min_r by lia.
  assert (0 < 2 ^ (53 - d)) by (apply Z.pow_pos_nonneg; lia).
  rewrite Z2Pos.id by lia.
  replace (-52 - -52) with 0 by lia.
  replace (d - 53 - -52) with (d - 1) by lia.
  apply Z.ltb_ge. unfold id.
  rewrite <- Z.mul_assoc, <- Z.pow_add_r by lia.
  replace (53 - d + (d - 1)) with 52 by lia. lia.
Qed.

End Rounding.

(** ** Decimal numerals

    [JsNumber.toString] of a positive integer is a row of decimal digits
    that [JsNumber.digits] reads back to the same integer. *)

Section Decimal.
Import JsNumber.

Ltac digit_cases H :=
  let E := fresh in
  match type of H with
  | is_digit ?c =>
      assert (c = 48 ∨ c = 49 ∨ c = 50 ∨ c = 51 ∨ c = 52 ∨ c = 53 ∨ c = 54
              ∨ c = 55 ∨ c = 56 ∨ c = 57)%N as E by (unfold is_digit in H; lia);
      clear H; repeat (destruct E as [->|E]); [..|subst c]
  end.

Lemma digit_of_decimal c : is_digit c → digit_of 10 c = Some (c - 48)%N.
Proof. intros H. digit_cases H; reflexivity. Qed.

Lemma digits_app pre r a k :
  Forall is_digit pre →
  digits 10 (pre ++ r) a k = digits 10 r (fold_left step pre a) (length pre + k)%nat.
Proof.
  intros H. revert a k. induction H as [|c pre Hc _ IH]; intros a k; [done|].
  cbn [app digits fold_left length]. rewrite digit_of_decimal by done.
  rewrite IH. unfold step at 2. f_equal. lia.
Qed.

Lemma digits_of_S f n acc :
  digits_of (S f) n acc =
  if (n / 10 =? 0)%N then (48 + n mod 10)%N :: acc
  else digits_of f (n / 10)%N ((48 + n mod 10)%N :: acc).
Proof. reflexivity. Qed.

Lemma digits_of_spec f n acc :
  (n < 2 ^ N.of_nat (S f))%N →
  ∃ pre, digits_of (S f) n acc = pre ++ acc ∧ Forall is_digit pre
         ∧ pre ≠ [] ∧ fold_left step pre 0%N = n.
Proof.
  revert n acc. induction f as [|f IH]; intros n acc Hn.
  - change (2 ^ N.of_nat 1)%N with 2%N in Hn.
    assert (n / 10 = 0)%N as Hq by (apply N.div_small; lia).
    rewrite digits_of_S, Hq. simpl.
    exists [(48 + n mod 10)%N]. repeat split; try done.
    + constructor; [|done]. unfold is_digit. pose proof (N.mod_upper_bound n 10 ltac:(done)).
      revert H. generalize (n mod 10)%N. lia.
    + simpl. unfold step. rewrite N.mod_small by lia. lia.
  - rewrite digits_of_S. destruct (N.eqb_spec (n / 10) 0) as [Hq|Hq].
    + exists [(48 + n mod 10)%N]. repeat split; try done.
      * constructor; [|done]. unfold is_digit. pose proof (N.mod_upper_bound n 10 ltac:(done)).
      revert H. generalize (n mod 10)%N. lia.
      * simpl. unfold step. pose proof (N.div_mod' n 10). lia.
    + destruct (IH (n / 10)%N ((48 + n mod 10)%N :: acc)) as (pre & E & Hd & Hne & Hv).
      { rewrite Nat2N.inj_succ, N.pow_succ_r' in Hn.
        apply N.Div0.div_lt_upper_bound.
        revert Hn. generalize (2 ^ N.of_nat (S f))%N. lia. }
      exists (pre ++ [(48 + n mod 10)%N]). repeat split.
      * rewrite E, <- app_assoc. done.
      * apply Forall_app. split; [done|]. constructor; [|done].
        unfold is_digit. pose proof (N.mod_upper_bound n 10 ltac:(done)).
      revert H. generalize (n mod 10)%N. lia.
      * by destruct pre.
      * rewrite fold_left_app, Hv. simpl. unfold step.
        pose proof (N.div_mod' n 10) as D. revert D.
        generalize (n mod 10)%N (n / 10)%N. lia.
Qed.

Lemma decimal_spec p :
  Forall is_digit (decimal (Npos p)) ∧ decimal (Npos p) ≠ []
  ∧ fold_left step (decimal (Npos p)) 0%N = Npos p.
Proof.
  unfold decimal.
  destruct (digits_of_spec (N.to_nat (N.log2 (N.pos p))) (N.pos p) [])
    as (pre & E & Hd & Hne & Hv).
  { rewrite Nat2N.inj_succ, N2Nat.id. apply N.log2_spec. lia. }
  rewrite E, app_nil_r. done.
Qed.

Lemma digits_decimal p :
  ∃ n, digits 10 (decimal (Npos p)) 0 0 = (Npos p, S n, []).
Proof.
  destruct (decimal_spec p) as (Hd & Hne & Hv).
  rewrite <- (app_nil_r (decimal _)), digits_app by done. simpl.
  rewrite Hv. destruct (decimal (N.pos p)); [done|]. simpl. eauto.
Qed.

Lemma digit_not_white_space c : is_digit c → JsString.is_white_space c = false.
Proof. intros H. digit_cases H; reflexivity. Qed.

Lemma trim_start_id s :
  Forall (λ c, JsString.is_white_space c = false) s → JsString.trim_start s = s.
Proof. intros [|c r Hc _]; simpl; [done|by rewrite Hc]. Qed.

Lemma trim_id s :
  Forall (λ c, JsString.is_white_space c = false) s → JsString.trim s = s.
Proof.
  intros H. unfold JsString.trim. rewrite (trim_start_id s) by done.
  rewrite trim_start_id by (by apply Forall_rev). apply rev_involutive.
Qed.

Lemma non_decimal_digits s : Forall is_digit s → non_decimal s = None.
Proof.
  intros [|c r Hc [|c' r' Hc' _]]; [done| |].
  - digit_cases Hc; reflexivity.
  - digit_cases Hc; try reflexivity. digit_cases Hc'; reflexivity.
Qed.

Lemma parse_decimal p : parse (decimal (Npos p)) = Some (LValue false (Npos p) 0).
Proof.
  destruct (decimal_spec p) as (Hd & Hne & _).
  destruct (digits_decimal p) as [n Hn].
  destruct (decimal (N.pos p)) as [|c r] eqn:E; [done|].
  unfold parse. rewrite trim_id
    by (eapply Forall_impl; [exact Hd|apply digit_not_white_space]).
  rewrite non_decimal_digits by done.
  apply Forall_cons in Hd as [Hc _].
  assert (unsigned_decimal false (c :: r) = Some (LValue false (N.pos p) 0)) as U.
  { unfold unsigned_decimal, JsString.eqb.
    rewrite bool_decide_eq_false_2, Hn; [done|].
    vm_compute (js "Infinity"). intros [= -> _]. unfold is_digit in Hc. lia. }
  digit_cases Hc; exact U.
Qed.

(** The Number a row of decimal digits converts to. *)
Lemma of_string_decimal p :
  of_string (decimal (Npos p)) = binary_round prec emax false p 0.
Proof.
  unfold of_string. rewrite parse_decimal. unfold round.
  change (0 <=? 0) with true. cbn iota. change (Z.to_pos (10 ^ 0)) with 1%positive.
  by rewrite Pos.mul_1_r.
Qed.

Lemma int_of_text_decimal p : Store.int_of_text (decimal (Npos p)) = Some (Z.pos p).
Proof.
  destruct (decimal_spec p) as (Hd & Hne & _).
  destruct (digits_decimal p) as [n Hn].
  unfold Store.int_of_text.
  assert (Store.skip_spaces (decimal (N.pos p)) = decimal (N.pos p)) as ->.
  { destruct Hd as [|c r Hc _]; [done|]. simpl.
    replace (Store.is_space c) with false; [done|]. digit_cases Hc; reflexivity. }
  destruct (decimal (N.pos p)) as [|c r] eqn:E; [done|].
  apply Forall_cons in Hd as [Hc _].
  assert (match digits 10 (c :: r) 0 0 with
          | (v, S _, r) => if forallb Store.is_space r then Some (Z.of_N v) else None
          | (_, O, _) => None
          end = Some (Z.pos p)) as U by (by rewrite Hn).
  digit_cases Hc; exact U.
Qed.
End Decimal.

(** ** Validation of the path parameter *)

Section Validation.

(** Among integral Numbers, [x < 1] compares the integer with 1. *)
Lemma lt_one_integral x n :
  JsNumber.to_Z x = Some n → JsNumber.lt x JsNumber.one = true ↔ n < 1.
Proof.
  change JsNumber.one with (S754_finite false 4503599627370496 (-52)).
  destruct x as [s|s| |s m e]; simpl; try discriminate.
  - intros [= <-]. by destruct s.
  - unfold JsNumber.lt, JsNumber.scaled, JsNumber.exponent.
    rewrite Z.ltb_lt.
    assert (∀ k, 0 ≤ k → 0 < 2 ^ k) as Hpow by (intros; by apply Z.pow_pos_nonneg).
    destruct (Z.leb_spec 0 e) as [He|He].
    + (* m * 2^e, e >= 0 *)
      intros [= <-]. rewrite Z.min_r by lia.
      pose proof (Hpow e He). pose proof (Hpow (e - -52) ltac:(lia)).
      replace (-52 - -52) with 0 by lia. rewrite Z.pow_0_r.
      assert (2 ^ 52 ≤ 2 ^ (e - -52)) by (apply Z.pow_le_mono_r; lia).
      revert H H0 H1. generalize (2 ^ e) (2 ^ (e - -52)). intros a b Ha Hb Hab.
      change (2 ^ 52) with 4503599627370496 in Hab.
      destruct s; unfold id; split; nia.
    + destruct (Z.eqb_spec (Z.pos m mod 2 ^ (- e)) 0) as [Hm|Hm]; [|by destruct s].
      pose proof (Hpow (- e) ltac:(lia)) as He'.
      apply Z.div_exact in Hm; [|lia].
      set (k := Z.pos m / 2 ^ (- e)) in *.
      assert (1 ≤ k) by nia.
      intros [= <-]. rewrite Hm. clear Hm.
      destruct (Z.le_ge_cases e (-52)) as [Hle|Hge].
      * rewrite Z.min_l by lia. replace (e - e) with 0 by lia.
        rewrite Z.pow_0_r.
        assert (Z.pos 4503599627370496 * 2 ^ (-52 - e) = 2 ^ (- e)) as ->.
        { change (Z.pos 4503599627370496) with (2 ^ 52).
          rewrite <- Z.pow_add_r by lia. f_equal. lia. }
        revert He'. generalize (2 ^ (- e)). intros a Ha.
        destruct s; unfold id; split; nia.
      * rewrite Z.min_r by lia. replace (-52 - -52) with 0 by lia.
        rewrite Z.pow_0_r.
        replace (2 ^ (- e) * k * 2 ^ (e - -52)) with (k * (2 ^ (- e) * 2 ^ (e - -52))) by lia.
        rewrite <- Z.pow_add_r by lia. replace (- e + (e - -52)) with 52 by lia.
        change (2 ^ 52) with 4503599627370496.
        destruct s; unfold id; split; nia.
Qed.

(** The condition of the three handlers holds of the strings whose Number
    is an integer of at least 1, and of no other. *)
Lemma validation_spec s :
  Number_isNaN (VString s)
  || negb (Number_isInteger (VNumber (unary_plus (VString s))))
  || JsNumber.lt (Number (VString s)) JsNumber.one = false
  ↔ positive_integer (JsNumber.of_string s).
Proof.
  unfold Number_isNaN, Number_isInteger, unary_plus, Number, ToNumber,
    JsNumber.isInteger, positive_integer.
  destruct (JsNumber.to_Z (JsNumber.of_string s)) as [n|] eqn:E; simpl.
  - pose proof (lt_one_integral _ _ E) as L.
    destruct (JsNumber.lt (JsNumber.of_string s) JsNumber.one); split.
    + discriminate.
    + intros (n' & [= <-] & Hn). destruct L as [L _]. specialize (L eq_refl). lia.
    + intros _. exists n. split; [done|]. destruct (Z.lt_ge_cases n 1); [|done].
      destruct L as [_ L]. by specialize (L ltac:(done)).
    + done.
  - split; [discriminate|]. by intros (? & [=] & _).
Qed.

End Validation.

(** ** The handlers after validation *)

Section Handlers.
Import Server.

Lemma get_entry_cases s :
  (¬ positive_integer (JsNumber.of_string s)
   ∧ get_entry s = throw (ClientError 400 (js "Invalid entryId.")))
  ∨ (positive_integer (JsNumber.of_string s)
     ∧ get_entry s =
       (rows ← db_query (Store.SelectById (Store.PNumber (JsNumber.of_string s)));
        match rows with
        | [] => throw (ClientError 404
                         (js "entryId " ++ s ++ js " does not exist."))
        | entry :: _ => mret {| status := 200; body := JEntry entry |}
        end)).
Proof.
  pose proof (validation_spec s) as V. unfold get_entry.
  destruct (_ || _ || _); [left|right]; (split; [|done]).
  - intros P. by apply V in P.
  - by apply V.
Qed.

Lemma put_entry_cases s b :
  (¬ positive_integer (JsNumber.of_string s)
   ∧ put_entry s b = throw (ClientError 400 (js "Invalid entryId.")))
  ∨ (positive_integer (JsNumber.of_string s)
     ∧ put_entry s b =
       if not (read (body_title b)) || not (read (body_notes b))
          || not (read (body_photoUrl b))
       then throw (ClientError 400 (js "title, notes and photoUrl is required."))
       else
         rows ← db_query (Store.UpdateById (text (body_title b))
                            (text (body_notes b)) (text (body_photoUrl b))
                            (Store.PNumber (JsNumber.of_string s)));
         match rows with
         | [] => throw (ClientError 404 (js "invalid entry."))
         | entry :: _ => mret {| status := 201; body := JEntry entry |}
         end).
Proof.
  pose proof (validation_spec s) as V. unfold put_entry.
  destruct (_ || _ || _); [left|right]; (split; [|done]).
  - intros P. by apply V in P.
  - by apply V.
Qed.

Lemma delete_entry_cases s :
  (¬ positive_integer (JsNumber.of_string s)
   ∧ delete_entry s = throw (ClientError 400 (js "Invalid entryId.")))
  ∨ (positive_integer (JsNumber.of_string s)
     ∧ delete_entry s =
       (rows ← db_query (Store.DeleteById (Store.PText s));
        match rows with
        | [] => throw (ClientError 404
                         (js "entryId " ++ s ++ js " does not exists."))
        | entry :: _ => mret {| status := 200; body := JEntry entry |}
        end)).
Proof.
  pose proof (validation_spec s) as V. unfold delete_entry.
  destruct (_ || _ || _); [left|right]; (split; [|done]).
  - intros P. by apply V in P.
  - by apply V.
Qed.

End Handlers.

(** ** Rows by id *)

Section Rows.

Lemma filter_absent (l : list Entry) k :
  (∀ r, r ∈ l → entryId r ≠ k) → filter (λ r, entryId r = k) l = [].
Proof.
  induction l as [|x l IH]; intros H; [done|].
  rewrite filter_cons_False by (apply H; left).
  apply IH. intros r Hr. apply H. by right.
Qed.

Lemma filter_unique (l : list Entry) e :
  NoDup (entryId <$> l) → e ∈ l → filter (λ r, entryId r = entryId e) l = [e].
Proof.
  induction l as [|x l IH]; intros ND Hin; [by apply elem_of_nil in Hin|].
  rewrite fmap_cons in ND. apply NoDup_cons in ND as [Hx ND].
  apply elem_of_cons in Hin as [->|Hin].
  - rewrite filter_cons_True by done. f_equal.
    apply filter_absent. intros r Hr E. apply Hx. rewrite <- E.
    by apply list_elem_of_fmap_2.
  - rewrite filter_cons_False; [by apply IH|].
    intros E. apply Hx. rewrite E. by apply list_elem_of_fmap_2.
Qed.

Lemma lookup_Some_elem k st e :
  Store.lookup k st = Some e → e ∈ Store.rows st ∧ entryId e = k.
Proof.
  unfold Store.lookup. intros H. apply head_Some_elem_of in H.
  by apply list_elem_of_filter in H as [? ?].
Qed.

Lemma lookup_rows k st e :
  Store.wf st → Store.lookup k st = Some e →
  filter (λ r, entryId r = k) (Store.rows st) = [e].
Proof.
  intros [ND _] H. apply lookup_Some_elem in H as [Hin <-].
  by apply filter_unique.
Qed.

End Rows.

(** ** Invariants of the store *)

Section Invariants.
Import Server.

Lemma NoDup_ids_filter (P : Entry → Prop) `{∀ x, Decision (P x)} (l : list Entry) :
  NoDup (entryId <$> l) → NoDup (entryId <$> filter P l).
Proof.
  induction l as [|x l IH]; intros ND; [constructor|].
  rewrite fmap_cons in ND. apply NoDup_cons in ND as [Hx ND].
  destruct (decide (P x)).
  - rewrite filter_cons_True, fmap_cons by done. apply NoDup_cons. split; [|auto].
    intros (y & E & Hy%list_elem_of_filter)%list_elem_of_fmap.
    apply Hx. rewrite E. apply list_elem_of_fmap_2. tauto.
  - rewrite filter_cons_False by done. auto.
Qed.

Lemma ids_assign t n p k (l : list Entry) :
  entryId <$> ((λ r, if decide (entryId r = k) then Store.assign t n p r else r) <$> l)
  = entryId <$> l.
Proof.
  rewrite <- list_fmap_compose. apply list_fmap_ext. intros _ r _. simpl.
  by destruct (decide _).
Qed.

Lemma exec_wf q st : Store.wf st → Store.wf (Store.exec q st).2.
Proof.
  intros (ND & H0 & Hb). destruct q as [|id|t n p|t n p id|id]; simpl; try done.
  - by destruct (Store.int_of_param id).
  - split_and!; simpl.
    + rewrite fmap_app. apply NoDup_app. split_and!; [done| |apply NoDup_singleton].
      intros x (r & -> & Hr)%list_elem_of_fmap Hx. simpl in Hx.
      apply list_elem_of_singleton in Hx. apply Hb in Hr. lia.
    + lia.
    + intros r [Hr|Hr]%elem_of_app.
      * apply Hb in Hr. lia.
      * apply list_elem_of_singleton in Hr as ->. simpl. lia.
  - destruct (Store.int_of_param id) as [k|]; [|done]. split_and!; simpl.
    + by rewrite ids_assign.
    + done.
    + intros r (r0 & -> & Hr)%list_elem_of_fmap. apply Hb in Hr.
      by destruct (decide _).
  - destruct (Store.int_of_param id) as [k|]; [|done]. split_and!; simpl.
    + by apply NoDup_ids_filter.
    + done.
    + intros r [_ Hr]%list_elem_of_filter. by apply Hb.
Qed.

Lemma exec_retired k q st :
  Store.retired k st → Store.retired k (Store.exec q st).2.
Proof.
  intros [Hk Ha]. destruct q as [|id|t n p|t n p id|id]; simpl; try done.
  - by destruct (Store.int_of_param id).
  - split; simpl; [lia|].
    intros r [Hr|Hr]%elem_of_app; [by apply Ha|].
    apply list_elem_of_singleton in Hr as ->. simpl. lia.
  - destruct (Store.int_of_param id) as [j|]; [|done]. split; simpl; [done|].
    intros r (r0 & -> & Hr)%list_elem_of_fmap. apply Ha in Hr.
    by destruct (decide _).
  - destruct (Store.int_of_param id) as [j|]; [|done]. split; simpl; [done|].
    intros r [_ Hr]%list_elem_of_filter. by apply Ha.
Qed.

(** A request leaves the store as it was or as one statement left it. *)
Lemma serve_store r st :
  store (serve (route r) st) = st
  ∨ ∃ q, store (serve (route r) st) = (Store.exec q st).2.
Proof.
  assert (∀ q (k : list Entry → M response),
            (∀ l w, (k l w).2 = w) →
            ∃ q', store (serve (rows ← db_query q; k rows) st) = (Store.exec q' st).2)
    as Q.
  { intros q k Hk. exists q. unfold serve, db_query, mbind, M_bind. simpl.
    destruct (Store.exec q st) as [[l|] st']; simpl; [|done].
    specialize (Hk l {| db := st'; log := [q] |}).
    destruct (k l _) as [[e|res] w]; simpl in *; by subst. }
  destruct r as [|s|b|s b|s]; cbn [route].
  - right. unfold get_entries. apply Q. done.
  - destruct (get_entry_cases s) as [[_ ->]|[_ ->]]; [by left|right].
    apply Q. by intros [|??] ?.
  - unfold post_entry. destruct (_ || _ || _); [by left|right].
    apply Q. by intros [|??] ?.
  - destruct (put_entry_cases s b) as [[_ ->]|[_ ->]]; [by left|].
    destruct (_ || _ || _); [by left|right].
    apply Q. by intros [|??] ?.
  - destruct (delete_entry_cases s) as [[_ ->]|[_ ->]]; [by left|right].
    apply Q. by intros [|??] ?.
Qed.

Lemma serve_wf r st : Store.wf st → Store.wf (store (serve (route r) st)).
Proof.
  intros W. destruct (serve_store r st) as [->|[q ->]]; [done|by apply exec_wf].
Qed.

Lemma run_wf rs st : Store.wf st → Store.wf (run rs st).
Proof.
  revert st. induction rs as [|r rs IH]; intros st W; [done|].
  simpl. apply IH. by apply serve_wf.
Qed.

Lemma run_retired k rs st : Store.retired k st → Store.retired k (run rs st).
Proof.
  revert st. induction rs as [|r rs IH]; intros st W; [done|].
  simpl. apply IH.
  destruct (serve_store r st) as [->|[q ->]]; [done|by apply exec_retired].
Qed.

End Invariants.

(** ** The path of an id

    The path a client builds from an id it was given is the decimal numeral
    of that id; up to [Number.MAX_SAFE_INTEGER] the handlers read the same
    id back from it, as a Number and as text. *)

Section Paths.

Lemma toString_path n :
  1 ≤ n ≤ JsNumber.MAX_SAFE_INTEGER →
  positive_integer (JsNumber.of_string (JsNumber.toString n))
  ∧ Store.int_of_param (Store.PNumber (JsNumber.of_string (JsNumber.toString n)))
    = Some n
  ∧ Store.int_of_param (Store.PText (JsNumber.toString n)) = Some n.
Proof.
  unfold JsNumber.MAX_SAFE_INTEGER. intros Hn.
  destruct n as [|p|p]; try lia. cbn [JsNumber.toString].
  assert (Z.pos p < 2 ^ 53) as Hp by (change (2 ^ 53) with 9007199254740992; lia).
  pose proof (to_Z_small false p Hp) as T. cbn iota in T.
  rewrite of_string_decimal. split_and!.
  - exists (Z.pos p). split; [exact T|lia].
  - cbn [Store.int_of_param]. rewrite T. simpl.
    replace (Z.pos p <? _) with true; [done|].
    symmetry. apply Z.ltb_lt.
    change (Z.pow_pos 10 21) with 1000000000000000000000. lia.
  - apply int_of_text_decimal.
Qed.

End Paths.

(** * The contract *)

Section Contract.
Import Server.

(** Rounding keeps the sign of the literal. *)
Lemma round_sign neg m e :
  match JsNumber.round (JsNumber.LValue neg m e) with
  | S754_zero s | S754_infinity s | S754_finite s _ _ => s = neg
  | S754_nan => True
  end.
Proof.
  unfold JsNumber.round. destruct m as [|p]; [done|].
  assert (∀ s mx ex lx,
            match binary_round_aux JsNumber.prec JsNumber.emax s mx ex lx with
            | S754_zero s' | S754_infinity s' | S754_finite s' _ _ => s' = s
            | S754_nan => True
            end) as A.
  { intros s mx ex lx. unfold binary_round_aux.
    destruct (shr_fexp _ _ mx ex lx) as [mrs' e'].
    destruct (shr_fexp _ _ _ e' loc_Exact) as [mrs'' e''].
    destruct (shr_m mrs''); [done| |done]. by destruct (_ <=? _). }
  destruct (0 <=? e).
  - unfold binary_round. destruct (shl_align _ _ _). apply A.
  - unfold SFdiv. destruct (SFdiv_core_binary _ _ _ _ _ _) as [[mz ez] lz].
    rewrite xorb_false_r. apply A.
Qed.

(** Strings that are no numeric literal, literals of value zero, negative
    literals and infinities never convert to an integer of at least 1. *)
Lemma not_positive_integer_classes s :
  match JsNumber.parse s with
  | None => True
  | Some (JsNumber.LInfinity _) => True
  | Some (JsNumber.LValue neg m _) => neg = true ∨ m = 0%N
  end →
  ¬ positive_integer (Number (VString s)).
Proof.
  unfold Number, ToNumber, JsNumber.of_string, positive_integer.
  destruct (JsNumber.parse s) as [[neg|neg m e]|]; intros H (n & T & Hn);
    try discriminate.
  pose proof (round_sign neg m e) as S.
  destruct H as [->| ->]; [|by injection T as <-].
  destruct (JsNumber.round _) as [s'|s'| |s' m' e']; try discriminate.
  - injection T as <-. lia.
  - subst s'. simpl in T.
    destruct (Z.leb_spec 0 e'); [|destruct (_ =? 0)]; simpl in T; try discriminate;
      injection T as <-.
    + pose proof (Z.pow_nonneg 2 e' ltac:(lia)) as P.
      pose proof (Z.mul_nonneg_nonneg (Z.pos m') (2 ^ e') ltac:(lia) P). lia.
    + pose proof (Z.div_pos (Z.pos m') (2 ^ (- e')) ltac:(lia)
                    ltac:(apply Z.pow_pos_nonneg; lia)). lia.
Qed.

(** C1 (as amended).  For every [entryId] path string that does not denote
    a positive integer (no numeral at all, a numeral of value zero, a
    negative one, an infinity, or one with a fractional part), except a
    fractional numeral whose nearest Number is an integer of at least 1,
    each of get, update and delete answers 400 "Invalid entryId.", leaves
    the store as it was and sends no statement to it. *)
Theorem invalid_entryId_rejected s :
  denotes_positive_integer s = false →
  (fractional s = true → ¬ positive_integer (Number (VString s))) →
  ∀ st b,
    serve (get_entry s) st
    = {| sent := invalid_entryId; store := st; queries := [] |}
    ∧ serve (put_entry s b) st
      = {| sent := invalid_entryId; store := st; queries := [] |}
    ∧ serve (delete_entry s) st
      = {| sent := invalid_entryId; store := st; queries := [] |}.
Proof.
  intros D F st b.
  assert (¬ positive_integer (JsNumber.of_string s)) as H.
  { pose proof (not_positive_integer_classes s) as C.
    unfold denotes_positive_integer in D. unfold fractional in F.
    destruct (JsNumber.parse s) as [[neg|neg m e]|]; try by apply C.
    destruct neg; [apply C; by left|].
    destruct m as [|p]; [apply C; by right|].
    simpl in D, F. apply orb_false_iff in D as [D1 D2]. apply F.
    by rewrite D1, D2. }
  split_and!.
  - by destruct (get_entry_cases s) as [[_ ->]|[P _]].
  - by destruct (put_entry_cases s b) as [[_ ->]|[P _]].
  - by destruct (delete_entry_cases s) as [[_ ->]|[P _]].
Qed.

Lemma invalid_entryId_rejected_witness :
  denotes_positive_integer (js "1.5") = false
  ∧ ¬ positive_integer (Number (VString (js "1.5")))
  ∧ serve (get_entry (js "1.5")) trip_store
    = {| sent := invalid_entryId; store := trip_store; queries := [] |}.
Proof.
  assert (¬ positive_integer (Number (VString (js "1.5")))) as H.
  { intros (n & T & _). vm_compute in T. discriminate. }
  split_and!; [reflexivity|exact H|].
  apply (invalid_entryId_rejected (js "1.5") eq_refl (λ _, H)
           trip_store trip_body).
Defined.

(** C1 (as stated) fails.  ["1.00000000000000001"] has a fractional part,
    so it does not denote a positive integer; its nearest Number is 1, and
    the three handlers let it through: get and update reach row 1, delete
    sends the string to the store. *)
Lemma fractional_entryId_accepted :
  denotes_positive_integer (js "1.00000000000000001") = false
  ∧ fractional (js "1.00000000000000001") = true
  ∧ sent (serve (get_entry (js "1.00000000000000001")) trip_store)
    = {| status := 200; body := JEntry trip |}
  ∧ queries (serve (get_entry (js "1.00000000000000001")) trip_store)
    = [Store.SelectById (Store.PNumber JsNumber.one)]
  ∧ status (sent (serve (put_entry (js "1.00000000000000001") hike_body)
                    trip_store)) = 201
  ∧ queries (serve (put_entry (js "1.00000000000000001") hike_body) trip_store)
    = [Store.UpdateById (js "Hike") (js "Wet") (js "z")
         (Store.PNumber JsNumber.one)]
  ∧ status (sent (serve (delete_entry (js "1.00000000000000001")) trip_store))
    = 500
  ∧ queries (serve (delete_entry (js "1.00000000000000001")) trip_store)
    = [Store.DeleteById (Store.PText (js "1.00000000000000001"))].
Proof. vm_compute. done. Qed.


#[local] Arguments JsString.js : simpl never.
#[local] Arguments Store.int_of_param : simpl never.
#[local] Arguments JsNumber.of_string : simpl never.

Ltac run_handler :=
  unfold serve, db_query, mbind, M_bind, mret, M_ret, throw; simpl.

Lemma get_entry_accepted s st :
  positive_integer (JsNumber.of_string s) →
  sent (serve (get_entry s) st) ≠ invalid_entryId.
Proof.
  intros P. destruct (get_entry_cases s) as [[N _]|[_ ->]]; [done|].
  run_handler. destruct (Store.int_of_param _); [|done].
  by destruct (filter _ _).
Qed.

Lemma put_entry_accepted s b st :
  positive_integer (JsNumber.of_string s) →
  sent (serve (put_entry s b) st) ≠ invalid_entryId.
Proof.
  intros P. destruct (put_entry_cases s b) as [[N _]|[_ ->]]; [done|].
  destruct (_ || _ || _); [done|].
  run_handler. destruct (Store.int_of_param _); [|done].
  by destruct (filter _ _).
Qed.

Lemma delete_entry_accepted s st :
  positive_integer (JsNumber.of_string s) →
  sent (serve (delete_entry s) st) ≠ invalid_entryId.
Proof.
  intros P. destruct (delete_entry_cases s) as [[N _]|[_ ->]]; [done|].
  run_handler. destruct (Store.int_of_param _); [|done].
  by destruct (filter _ _).
Qed.

(** C10.  The three handlers share one acceptance predicate: a path string
    is turned down with 400 "Invalid entryId." exactly when [Number] of it
    is not an integer of at least 1.  [Number.isNaN] of a string is false
    whatever the string, and ["1.0"], [" 7 "], ["0x10"] and ["2e3"] are
    accepted. *)
Theorem entryId_accepted_iff_Number_integer :
  (∀ s, Number_isNaN (VString s) = false)
  ∧ (∀ s st b,
       (sent (serve (get_entry s) st) = invalid_entryId
        ↔ ¬ positive_integer (Number (VString s)))
       ∧ (sent (serve (put_entry s b) st) = invalid_entryId
          ↔ ¬ positive_integer (Number (VString s)))
       ∧ (sent (serve (delete_entry s) st) = invalid_entryId
          ↔ ¬ positive_integer (Number (VString s))))
  ∧ Forall (λ s, positive_integer (Number (VString s)))
      [js "1.0"; js " 7 "; js "0x10"; js "2e3"].
Proof.
  split_and!.
  - done.
  - intros s st b. split_and!; split.
    + intros E P. by apply (get_entry_accepted s st).
    + intros N. by destruct (get_entry_cases s) as [[_ ->]|[P _]].
    + intros E P. by apply (put_entry_accepted s b st).
    + intros N. by destruct (put_entry_cases s b) as [[_ ->]|[P _]].
    + intros E P. by apply (delete_entry_accepted s st).
    + intros N. by destruct (delete_entry_cases s) as [[_ ->]|[P _]].
  - repeat constructor.
    + by exists 1.
    + by exists 7.
    + by exists 16.
    + by exists 2000.
Qed.


(** What the field check of create and update computes. *)
Lemma not_read p : not (read p) = true ↔ missing_or_empty p.
Proof.
  unfold missing_or_empty.
  destruct p as [[|c r]|]; simpl; split; intros H; auto; try discriminate;
    destruct H; discriminate.
Qed.

Lemma fields_missing b :
  not (read (body_title b)) || not (read (body_notes b))
  || not (read (body_photoUrl b)) = true
  ↔ missing_or_empty (body_title b) ∨ missing_or_empty (body_notes b)
    ∨ missing_or_empty (body_photoUrl b).
Proof. rewrite !orb_true_iff, !not_read. tauto. Qed.

Lemma fields_present b t n p :
  present (body_title b) t → present (body_notes b) n →
  present (body_photoUrl b) p →
  not (read (body_title b)) || not (read (body_notes b))
  || not (read (body_photoUrl b)) = false
  ∧ text (body_title b) = t ∧ text (body_notes b) = n
  ∧ text (body_photoUrl b) = p.
Proof.
  intros [-> Ht] [-> Hn] [-> Hp]. by destruct t, n, p.
Qed.

(** C2.  A create or update request in which [title], [notes] or
    [photoUrl] is missing or empty is answered 400; the store is left as it
    was and no statement is sent to it. *)
Theorem missing_field_rejected b :
  missing_or_empty (body_title b) ∨ missing_or_empty (body_notes b)
  ∨ missing_or_empty (body_photoUrl b) →
  ∀ st,
    (status (sent (serve (post_entry b) st)) = 400
     ∧ store (serve (post_entry b) st) = st
     ∧ queries (serve (post_entry b) st) = [])
    ∧ ∀ s,
        status (sent (serve (put_entry s b) st)) = 400
        ∧ store (serve (put_entry s b) st) = st
        ∧ queries (serve (put_entry s b) st) = [].
Proof.
  intros M%fields_missing st. split.
  - unfold post_entry. by rewrite M.
  - intros s. destruct (put_entry_cases s b) as [[_ ->]|[_ ->]]; [done|].
    by rewrite M.
Qed.

Lemma missing_field_rejected_witness :
  status (sent (serve (post_entry partial_body) trip_store)) = 400
  ∧ store (serve (post_entry partial_body) trip_store) = trip_store
  ∧ store (serve (put_entry (js "1") partial_body) trip_store) = trip_store.
Proof.
  assert (missing_or_empty (body_title partial_body)
          ∨ missing_or_empty (body_notes partial_body)
          ∨ missing_or_empty (body_photoUrl partial_body)) as H
    by (right; left; right; reflexivity).
  destruct (missing_field_rejected partial_body H trip_store) as [(P & S & _) U].
  split_and!; [exact P|exact S|]. by destruct (U (js "1")) as (_ & S' & _).
Defined.

Lemma post_entry_present b t n p st :
  present (body_title b) t → present (body_notes b) n →
  present (body_photoUrl b) p →
  serve (post_entry b) st =
  {| sent := {| status := 201; body := JEntry (created st t n p) |};
     store := {| Store.rows := Store.rows st ++ [created st t n p];
                 Store.last_id := Store.last_id st + 1 |};
     queries := [Store.Insert t n p] |}.
Proof.
  intros Ht Hn Hp.
  destruct (fields_present b t n p Ht Hn Hp) as (F & Et & En & Ep).
  unfold post_entry. rewrite F, Et, En, Ep. reflexivity.
Qed.

(** C3.  A create request whose [title], [notes] and [photoUrl] are present
    and non-empty is answered 201 with an entry that carries the id the
    store generated together with the three submitted values as they were
    sent.  The handler sends the store one statement, the insert of the
    three values; the entry of the answer is the row that insert returned,
    under the next id of the store's counter, which in a well-formed store
    is the id of no other row; and the store is left with that row added
    and the counter advanced. *)
Theorem create_returns_submitted b t n p st :
  present (body_title b) t → present (body_notes b) n →
  present (body_photoUrl b) p →
  sent (serve (post_entry b) st)
  = {| status := 201;
       body := JEntry {| entryId := Store.last_id st + 1;
                         title := t; notes := n; photoUrl := p |} |}
  ∧ (Store.wf st → ∀ r, r ∈ Store.rows st → entryId r ≠ Store.last_id st + 1)
  ∧ queries (serve (post_entry b) st) = [Store.Insert t n p]
  ∧ Store.exec (Store.Insert t n p) st
    = (Store.Rows [{| entryId := Store.last_id st + 1;
                      title := t; notes := n; photoUrl := p |}],
       store (serve (post_entry b) st))
  ∧ Store.rows (store (serve (post_entry b) st))
    = Store.rows st ++ [{| entryId := Store.last_id st + 1;
                           title := t; notes := n; photoUrl := p |}]
  ∧ Store.last_id (store (serve (post_entry b) st)) = Store.last_id st + 1.
Proof.
  intros Ht Hn Hp. rewrite (post_entry_present b t n p) by done.
  split_and!; try done.
  intros (_ & _ & Hb) r Hr. apply Hb in Hr. lia.
Qed.

Lemma create_returns_submitted_witness :
  sent (serve (post_entry trip_body) Store.empty)
  = {| status := 201; body := JEntry trip |}
  ∧ queries (serve (post_entry trip_body) Store.empty)
    = [Store.Insert (js "Trip") (js "Fun") (js "http://x/y.jpg")]
  ∧ store (serve (post_entry trip_body) Store.empty) = trip_store.
Proof.
  assert (present (body_title trip_body) (js "Trip")) as Ht
    by (split; [reflexivity|vm_compute; discriminate]).
  assert (present (body_notes trip_body) (js "Fun")) as Hn
    by (split; [reflexivity|vm_compute; discriminate]).
  assert (present (body_photoUrl trip_body) (js "http://x/y.jpg")) as Hp
    by (split; [reflexivity|vm_compute; discriminate]).
  destruct (create_returns_submitted trip_body (js "Trip") (js "Fun")
              (js "http://x/y.jpg") Store.empty Ht Hn Hp)
    as (S & _ & Q & _ & _ & _).
  split_and!; [exact S|exact Q|reflexivity].
Defined.

(** C7.  Create answers 201 or 400 and nothing else: 400 when a field is
    missing or empty, 201 otherwise.  The insert returns the row it made
    whatever the store, so the 404 of the handler is never sent. *)
Theorem create_status_201_or_400 b st :
  (status (sent (serve (post_entry b) st)) = 201
   ∨ status (sent (serve (post_entry b) st)) = 400)
  ∧ status (sent (serve (post_entry b) st)) ≠ 404
  ∧ ∀ t n p, ∃ e st', Store.exec (Store.Insert t n p) st = (Store.Rows [e], st').
Proof.
  assert (status (sent (serve (post_entry b) st)) = 201
          ∨ status (sent (serve (post_entry b) st)) = 400) as H.
  { unfold post_entry. destruct (_ || _ || _); [by right|by left]. }
  split_and!; [done|by destruct H as [-> | ->]|].
  intros t n p. by eexists _, _.
Qed.


(** The stores of the examples are well-formed, and so is every store a
    session of requests leaves behind an empty one. *)
Lemma wf_empty : Store.wf Store.empty.
Proof. split_and!; [constructor|simpl; lia|]. intros r Hr. inversion Hr. Qed.

Lemma wf_trip_store : Store.wf trip_store.
Proof.
  split_and!; [apply NoDup_singleton|simpl; lia|].
  intros r Hr. apply list_elem_of_singleton in Hr as ->. simpl. lia.
Qed.

Lemma wf_reachable rs : Store.wf (run rs Store.empty).
Proof. apply run_wf, wf_empty. Qed.

(** Get by the path of an id, in a well-formed store. *)
Lemma lookup_intro st e :
  Store.wf st → e ∈ Store.rows st → Store.lookup (entryId e) st = Some e.
Proof.
  intros [ND _] Hin. unfold Store.lookup. by rewrite filter_unique.
Qed.

Lemma get_entry_found st k e :
  Store.wf st → k ≤ JsNumber.MAX_SAFE_INTEGER → Store.lookup k st = Some e →
  serve (get_entry (JsNumber.toString k)) st
  = {| sent := {| status := 200; body := JEntry e |};
       store := st;
       queries := [Store.SelectById
                     (Store.PNumber (JsNumber.of_string (JsNumber.toString k)))] |}.
Proof.
  intros W Hk L.
  assert (1 ≤ k) as Hk1.
  { destruct (lookup_Some_elem _ _ _ L) as [Hin <-]. by apply W. }
  destruct (toString_path k ltac:(done)) as (P & I & _).
  destruct (get_entry_cases (JsNumber.toString k)) as [[N _]|[_ ->]]; [done|].
  run_handler. rewrite I. by rewrite (lookup_rows k st e).
Qed.

Lemma get_entry_missing st k :
  1 ≤ k ≤ JsNumber.MAX_SAFE_INTEGER →
  (∀ r, r ∈ Store.rows st → entryId r ≠ k) →
  status (sent (serve (get_entry (JsNumber.toString k)) st)) = 404.
Proof.
  intros Hk A.
  destruct (toString_path k ltac:(done)) as (P & I & _).
  destruct (get_entry_cases (JsNumber.toString k)) as [[N _]|[_ ->]]; [done|].
  run_handler. rewrite I. by rewrite filter_absent.
Qed.

(** C4.  Round trip: the entry a create returned is what a get by the id
    in it returns next, with status 200 and the store untouched by the get.
    The store is well-formed and the id within [Number.MAX_SAFE_INTEGER]. *)
Theorem created_entry_round_trip st b e :
  Store.wf st →
  Store.last_id st < JsNumber.MAX_SAFE_INTEGER →
  sent (serve (post_entry b) st) = {| status := 201; body := JEntry e |} →
  let st' := store (serve (post_entry b) st) in
  sent (serve (get_entry (JsNumber.toString (entryId e))) st')
  = {| status := 200; body := JEntry e |}
  ∧ store (serve (get_entry (JsNumber.toString (entryId e))) st') = st'.
Proof.
  intros W Hmax Hsent st'.
  assert (Store.wf st') as W'.
  { destruct (serve_store (POST_entry b) st) as [E|[q E]]; simpl in E;
      subst st'; rewrite E; [done|by apply exec_wf]. }
  assert (e ∈ Store.rows st' ∧ entryId e = Store.last_id st + 1) as [Hin He].
  { subst st'. revert Hsent. unfold post_entry.
    destruct (_ || _ || _); [discriminate|]. run_handler. intros [= <-].
    split; [|done]. apply elem_of_app. right. by apply list_elem_of_singleton. }
  rewrite (get_entry_found st' (entryId e) e); [done|done|lia|].
  by apply lookup_intro.
Qed.

Lemma created_entry_round_trip_witness :
  sent (serve (get_entry (js "1")) (store (serve (post_entry trip_body) Store.empty)))
  = {| status := 200; body := JEntry trip |}.
Proof.
  assert (Store.last_id Store.empty < JsNumber.MAX_SAFE_INTEGER) as Hmax
    by reflexivity.
  assert (sent (serve (post_entry trip_body) Store.empty)
          = {| status := 201; body := JEntry trip |}) as Hsent by reflexivity.
  exact (proj1 (created_entry_round_trip Store.empty trip_body trip
                  wf_empty Hmax Hsent)).
Defined.

(** The store after an update by the path of an existing id. *)
Lemma put_entry_found st k old b t n p :
  Store.wf st → k ≤ JsNumber.MAX_SAFE_INTEGER → Store.lookup k st = Some old →
  present (body_title b) t → present (body_notes b) n →
  present (body_photoUrl b) p →
  let new := {| entryId := k; title := t; notes := n; photoUrl := p |} in
  sent (serve (put_entry (JsNumber.toString k) b) st)
  = {| status := 201; body := JEntry new |}
  ∧ Store.wf (store (serve (put_entry (JsNumber.toString k) b) st))
  ∧ Store.lookup k (store (serve (put_entry (JsNumber.toString k) b) st))
    = Some new.
Proof.
  intros W Hk L Ht Hn Hp new.
  destruct (lookup_Some_elem _ _ _ L) as [Hin Hid].
  assert (1 ≤ k) as Hk1 by (rewrite <- Hid; by apply W).
  destruct (toString_path k ltac:(done)) as (P & I & _).
  destruct (fields_present b t n p Ht Hn Hp) as (F & Et & En & Ep).
  pose proof (exec_wf (Store.UpdateById t n p
                         (Store.PNumber (JsNumber.of_string (JsNumber.toString k))))
                st W) as W'.
  cbn [Store.exec] in W'. rewrite I in W'. cbn [snd] in W'.
  destruct (put_entry_cases (JsNumber.toString k) b) as [[N _]|[_ ->]]; [done|].
  rewrite F, Et, En, Ep. run_handler. rewrite I. simpl.
  set (f := λ r, if decide (entryId r = k) then Store.assign t n p r else r) in *.
  assert (new ∈ f <$> Store.rows st) as Hnew.
  { apply list_elem_of_fmap. exists old. split; [|done].
    unfold f. rewrite decide_True by done. unfold Store.assign, new.
    by rewrite Hid. }
  assert (filter (λ r, entryId r = k) (f <$> Store.rows st) = [new]) as Ef.
  { apply (filter_unique _ new); [|done]. apply W'. }
  rewrite Ef. split_and!; [done|done|].
  unfold Store.lookup. simpl. by rewrite Ef.
Qed.

(** C5.  An update of an existing id with three non-empty fields is
    answered 201 with the entry of that id carrying the three submitted
    values, whatever the row held before, and a get by the same id returns
    that very entry.  The store is well-formed and the id within
    [Number.MAX_SAFE_INTEGER]. *)
Theorem update_replaces_fields st k old b t n p :
  Store.wf st → k ≤ JsNumber.MAX_SAFE_INTEGER → Store.lookup k st = Some old →
  present (body_title b) t → present (body_notes b) n →
  present (body_photoUrl b) p →
  let new := {| entryId := k; title := t; notes := n; photoUrl := p |} in
  let st' := store (serve (put_entry (JsNumber.toString k) b) st) in
  sent (serve (put_entry (JsNumber.toString k) b) st)
  = {| status := 201; body := JEntry new |}
  ∧ sent (serve (get_entry (JsNumber.toString k)) st')
    = {| status := 200; body := JEntry new |}.
Proof.
  intros W Hk L Ht Hn Hp new st'.
  destruct (put_entry_found st k old b t n p W Hk L Ht Hn Hp) as (S & W' & L').
  split; [done|]. by rewrite (get_entry_found st' k new).
Qed.

Lemma update_replaces_fields_witness :
  sent (serve (put_entry (js "1") hike_body) trip_store)
  = {| status := 201;
       body := JEntry {| entryId := 1; title := js "Hike"; notes := js "Wet";
                         photoUrl := js "z" |} |}
  ∧ sent (serve (get_entry (js "1"))
            (store (serve (put_entry (js "1") hike_body) trip_store)))
    = {| status := 200;
         body := JEntry {| entryId := 1; title := js "Hike"; notes := js "Wet";
                           photoUrl := js "z" |} |}.
Proof.
  refine (update_replaces_fields trip_store 1 trip hike_body
            (js "Hike") (js "Wet") (js "z") wf_trip_store _ _ _ _ _);
    [unfold JsNumber.MAX_SAFE_INTEGER; lia|reflexivity|..];
    (split; [reflexivity|vm_compute; discriminate]).
Defined.

(** C6.  Deleting an existing id is answered 200 with the row that was
    deleted, and from then on, whatever requests are served in between, a
    get by that id is answered 404.  The store is well-formed and the id
    within [Number.MAX_SAFE_INTEGER]. *)
Theorem delete_then_get_404 st k e :
  Store.wf st → k ≤ JsNumber.MAX_SAFE_INTEGER → Store.lookup k st = Some e →
  sent (serve (delete_entry (JsNumber.toString k)) st)
  = {| status := 200; body := JEntry e |}
  ∧ ∀ rs,
      status (sent (serve (get_entry (JsNumber.toString k))
                      (run rs (store (serve (delete_entry (JsNumber.toString k)) st)))))
      = 404.
Proof.
  intros W Hk L.
  destruct (lookup_Some_elem _ _ _ L) as [Hin Hid].
  assert (1 ≤ k ≤ Store.last_id st) as Hk1 by (rewrite <- Hid; by apply W).
  destruct (toString_path k ltac:(lia)) as (P & _ & I).
  destruct (delete_entry_cases (JsNumber.toString k)) as [[N _]|[_ ->]]; [done|].
  run_handler. rewrite I. rewrite (lookup_rows k st e) by done. simpl.
  split; [done|]. intros rs.
  apply get_entry_missing; [lia|].
  apply run_retired. split; simpl; [lia|].
  by intros r [? _]%list_elem_of_filter.
Qed.

Lemma delete_then_get_404_witness :
  sent (serve (delete_entry (js "1")) trip_store)
  = {| status := 200; body := JEntry trip |}
  ∧ status (sent (serve (get_entry (js "1"))
                    (run [POST_entry trip_body]
                       (store (serve (delete_entry (js "1")) trip_store)))))
    = 404.
Proof.
  assert (1 ≤ JsNumber.MAX_SAFE_INTEGER) as Hk
    by (unfold JsNumber.MAX_SAFE_INTEGER; lia).
  assert (Store.lookup 1 trip_store = Some trip) as L by reflexivity.
  destruct (delete_then_get_404 trip_store 1 trip wf_trip_store Hk L) as [D G].
  split; [exact D|exact (G [POST_entry trip_body])].
Defined.


(** The store after any update request: as it was, or with the three
    columns assigned on the rows of one id. *)
Lemma put_entry_store s b st :
  store (serve (put_entry s b) st) = st
  ∨ ∃ k,
      Store.int_of_param (Store.PNumber (Number (VString s))) = Some k
      ∧ store (serve (put_entry s b) st)
        = {| Store.rows :=
               (λ r, if decide (entryId r = k)
                     then Store.assign (text (body_title b)) (text (body_notes b))
                            (text (body_photoUrl b)) r
                     else r) <$> Store.rows st;
             Store.last_id := Store.last_id st |}.
Proof.
  destruct (put_entry_cases s b) as [[_ ->]|[_ ->]]; [by left|].
  destruct (_ || _ || _); [by left|].
  run_handler. unfold Number, ToNumber.
  destruct (Store.int_of_param _) as [k|]; [right|by left].
  exists k. split; [done|]. simpl. by destruct (filter _ _).
Qed.

(** C8.  An update changes nothing but the [title], [notes] and [photoUrl]
    of the row the path parameter selects: the ids of the table, row by row,
    and the counter are as before; a row of another id is as before; in a
    well-formed store at most one row differs; and the answer and the store
    do not depend on an [entryId] in the body, such as the one the form
    sends along with the fields. *)
Theorem update_frame s b st :
  let o := serve (put_entry s b) st in
  Store.last_id (store o) = Store.last_id st
  ∧ entryId <$> Store.rows (store o) = entryId <$> Store.rows st
  ∧ (∀ i r,
       Store.rows st !! i = Some r →
       Store.int_of_param (Store.PNumber (Number (VString s))) ≠ Some (entryId r) →
       Store.rows (store o) !! i = Some r)
  ∧ (Store.wf st →
     ∀ i j r1 r2,
       Store.rows st !! i = Some r1 → Store.rows st !! j = Some r2 →
       Store.rows (store o) !! i ≠ Some r1 →
       Store.rows (store o) !! j ≠ Some r2 → i = j)
  ∧ (∀ b',
       body_title b' = body_title b → body_notes b' = body_notes b →
       body_photoUrl b' = body_photoUrl b →
       serve (put_entry s b') st = o)
  ∧ (∀ e f,
       serve (put_entry s (Client.spread (Some e) (Client.newEntry f))) st
       = serve (put_entry s (Client.newEntry f)) st).
Proof.
  intros o.
  assert (∀ b', body_title b' = body_title b → body_notes b' = body_notes b →
                body_photoUrl b' = body_photoUrl b →
                serve (put_entry s b') st = o) as Hbody.
  { intros b' Et En Ep. subst o. unfold put_entry. by rewrite Et, En, Ep. }
  assert (∀ e f,
            serve (put_entry s (Client.spread (Some e) (Client.newEntry f))) st
            = serve (put_entry s (Client.newEntry f)) st) as Hform.
  { intros e f. reflexivity. }
  subst o. destruct (put_entry_store s b st) as [->|(k & I & ->)].
  { split_and!; done. }
  set (g := λ r, if decide (entryId r = k)
                 then Store.assign (text (body_title b)) (text (body_notes b))
                        (text (body_photoUrl b)) r
                 else r).
  assert (∀ i r, Store.rows st !! i = Some r → entryId r ≠ k →
                 (g <$> Store.rows st) !! i = Some r) as Hsame.
  { intros i r Hi Hne. rewrite list_lookup_fmap, Hi. simpl.
    unfold g. by rewrite decide_False. }
  split_and!; simpl; try done.
  - apply ids_assign.
  - intros i r Hi Hne. apply Hsame; [done|]. intros E. apply Hne. rewrite E. exact I.
  - intros (ND & _) i j r1 r2 H1 H2 N1 N2.
    assert (entryId r1 = k) as E1.
    { destruct (decide (entryId r1 = k)); [done|]. destruct N1. by apply Hsame. }
    assert (entryId r2 = k) as E2.
    { destruct (decide (entryId r2 = k)); [done|]. destruct N2. by apply Hsame. }
    apply (NoDup_lookup _ i j k ND); rewrite list_lookup_fmap.
    + by rewrite H1; simpl; rewrite E1.
    + by rewrite H2; simpl; rewrite E2.
Qed.

(** [isEditing] holds of a route parameter that is present, not empty and
    not ['new']. *)
Lemma isEditing_spec entryId :
  Client.isEditing entryId = true
  ↔ ∃ id, entryId = Some id ∧ id ≠ [] ∧ id ≠ js "new".
Proof.
  unfold Client.isEditing. rewrite andb_true_iff, negb_true_iff, bool_decide_eq_false.
  destruct entryId as [[|c r]|]; simpl; split.
  - by intros [? _].
  - by intros (id & [= <-] & ? & _).
  - intros [_ N]. exists (c :: r). split_and!; [done|done|]. intros E. apply N. by rewrite E.
  - intros (id & [= <-] & _ & N). split; [done|]. intros E. apply N. congruence.
  - by intros [? _].
  - by intros (id & [=] & _).
Qed.



(** The example session of the contract: create, get, delete, get. *)
Example trip_session :
  serve (post_entry trip_body) Store.empty
  = {| sent := {| status := 201; body := JEntry trip |};
       store := trip_store;
       queries := [Store.Insert (js "Trip") (js "Fun") (js "http://x/y.jpg")] |}
  ∧ sent (serve (get_entry (js "1")) trip_store)
    = {| status := 200; body := JEntry trip |}
  ∧ sent (serve (delete_entry (js "1")) trip_store)
    = {| status := 200; body := JEntry trip |}
  ∧ status (sent (serve (get_entry (js "1"))
                    (store (serve (delete_entry (js "1")) trip_store)))) = 404.
Proof. vm_compute. done. Qed.

(** A submit of the form for a new entry whose request is answered 400, and
    a submit of the form of entry 1 whose request never reaches the server. *)
Example submit_traces :
  Client.submit (Some (js "new")) Client.initial
    {| Client.form_title := js "Trip"; Client.form_photoUrl := js "http://x/y.jpg";
       Client.form_notes := [] |}
    (Client.Responded
       {| status := 400;
          body := JError (js "title, notes and photoUrl is required.") |})
  = [Client.PreventDefault;
     Client.Fetch {| Client.method_ := Client.POST;
                     Client.url := js "/api/entries";
                     Client.payload :=
                       {| body_entryId := None; body_title := Some (js "Trip");
                          body_notes := Some [];
                          body_photoUrl := Some (js "http://x/y.jpg") |} |};
     Client.Navigate (js "/");
     Client.UnhandledRejection (js "Failed to add entry. Please try again.")]
  ∧ Client.submit (Some (js "1"))
      {| Client.entry := Some trip; Client.photoUrl_ := Some (js "http://x/y.jpg");
         Client.isLoading := false; Client.error := None;
         Client.isDeleting := false |}
      {| Client.form_title := js "Hike"; Client.form_photoUrl := js "z";
         Client.form_notes := js "Wet" |}
      Client.NetworkError
    = [Client.PreventDefault;
       Client.Fetch {| Client.method_ := Client.PUT;
                       Client.url := js "/api/entries/1";
                       Client.payload :=
                         {| body_entryId := Some 1; body_title := Some (js "Hike");
                            body_notes := Some (js "Wet");
                            body_photoUrl := Some (js "z") |} |};
       Client.Navigate (js "/");
       Client.UnhandledRejection (js "Failed to add entry. Please try again.")].
Proof. vm_compute. done. Qed.

(** [Number] on the numerals of the contract. *)
Example Number_numerals :
  Number (VString (js "1.0")) = JsNumber.of_Z 1
  ∧ Number (VString (js " 7 ")) = JsNumber.of_Z 7
  ∧ Number (VString (js "0x10")) = JsNumber.of_Z 16
  ∧ Number (VString (js "2e3")) = JsNumber.of_Z 2000
  ∧ Number (VString (js "1.00000000000000001")) = JsNumber.of_Z 1
  ∧ Number (VString (js "abc")) = JsNumber.NaN
  ∧ Number (VString (js "1e400")) = S754_infinity false
  ∧ JsNumber.toString 1234567890 = js "1234567890".
Proof. vm_compute. done. Qed.

End Contract.

(** * Further properties of the handlers *)

Section Handlers_more.
Import Server.

#[local] Arguments JsString.js : simpl never.
#[local] Arguments Store.int_of_param : simpl never.
#[local] Arguments JsNumber.of_string : simpl never.

Ltac run_query :=
  unfold serve, db_query, mbind, M_bind, mret, M_ret, throw; simpl.

(** What a get answers, by the rows of the id its path converts to. *)
Lemma get_entry_accepted_eq s st :
  positive_integer (JsNumber.of_string s) →
  serve (get_entry s) st =
  match Store.int_of_param (Store.PNumber (JsNumber.of_string s)) with
  | Some k =>
      {| sent :=
           match filter (λ r, entryId r = k) (Store.rows st) with
           | [] => {| status := 404;
                      body := JError (js "entryId " ++ s ++ js " does not exist.") |}
           | e :: _ => {| status := 200; body := JEntry e |}
           end;
         store := st;
         queries := [Store.SelectById (Store.PNumber (JsNumber.of_string s))] |}
  | None =>
      {| sent := errorMiddleware StoreError; store := st;
         queries := [Store.SelectById (Store.PNumber (JsNumber.of_string s))] |}
  end.
Proof.
  intros P. destruct (get_entry_cases s) as [[N _]|[_ ->]]; [done|].
  run_query. destruct (Store.int_of_param _); [|done].
  by destruct (filter _ _).
Qed.

Lemma int_of_number_to_Z x k :
  Store.int_of_param (Store.PNumber x) = Some k → JsNumber.to_Z x = Some k.
Proof.
  unfold Store.int_of_param. destruct (JsNumber.to_Z x) as [z|]; simpl; [|done].
  destruct (_ <? _); [|done]. by intros [= ->].
Qed.

Lemma get_entry_200 s st e :
  sent (serve (get_entry s) st) = {| status := 200; body := JEntry e |} →
  e ∈ Store.rows st ∧ JsNumber.to_Z (JsNumber.of_string s) = Some (entryId e).
Proof.
  destruct (get_entry_cases s) as [[N E]|[P _]]; [by rewrite E|].
  rewrite (get_entry_accepted_eq s st P).
  destruct (Store.int_of_param _) as [k|] eqn:I; [|discriminate].
  apply int_of_number_to_Z in I. rewrite I.
  destruct (filter _ _) as [|e' l] eqn:F; simpl; [discriminate|].
  intros [= <-].
  assert (e' ∈ filter (λ r, entryId r = k) (Store.rows st)) as Hin
    by (rewrite F; left).
  by apply list_elem_of_filter in Hin as [<- Hin].
Qed.

Lemma get_entry_unchanged s st : store (serve (get_entry s) st) = st.
Proof.
  destruct (get_entry_cases s) as [[N E]|[P _]]; [by rewrite E|].
  rewrite (get_entry_accepted_eq s st P). by destruct (Store.int_of_param _).
Qed.

(** X1.  A get never writes.  When it answers 200 the entry is a row of the
    table whose id is the integer its path converts to; when it answers 404
    the table has no row of that id. *)
Theorem get_entry_reads s st :
  store (serve (get_entry s) st) = st
  ∧ (∀ e, sent (serve (get_entry s) st) = {| status := 200; body := JEntry e |} →
          e ∈ Store.rows st
          ∧ JsNumber.to_Z (Number (VString s)) = Some (entryId e))
  ∧ (status (sent (serve (get_entry s) st)) = 404 →
     ∀ r, r ∈ Store.rows st →
          JsNumber.to_Z (Number (VString s)) ≠ Some (entryId r)).
Proof.
  split_and!; [apply get_entry_unchanged|apply get_entry_200|].
  destruct (get_entry_cases s) as [[N E]|[P _]]; [by rewrite E|].
  rewrite (get_entry_accepted_eq s st P).
  destruct (Store.int_of_param _) as [k|] eqn:I; [|discriminate].
  apply int_of_number_to_Z in I. unfold Number, ToNumber. rewrite I.
  destruct (filter _ _) as [|e l] eqn:F; simpl; [|discriminate].
  intros _ r Hr [= E].
  assert (r ∈ filter (λ r, entryId r = k) (Store.rows st)) as Hin
    by (by apply list_elem_of_filter).
  rewrite F in Hin. by apply elem_of_nil in Hin.
Qed.

(** X2.  The list is the table: it answers 200 with every row, writes
    nothing, and in a well-formed store an entry is in it exactly when a get
    by the path of its id answers 200 with that entry. *)
Theorem list_agrees_with_get st :
  Store.wf st →
  serve get_entries st
  = {| sent := {| status := 200; body := JEntries (Store.rows st) |};
       store := st; queries := [Store.SelectAll] |}
  ∧ ∀ e, entryId e ≤ JsNumber.MAX_SAFE_INTEGER →
         (e ∈ Store.rows st
          ↔ sent (serve (get_entry (JsNumber.toString (entryId e))) st)
            = {| status := 200; body := JEntry e |}).
Proof.
  intros W. split; [done|]. intros e He. split.
  - intros Hin. rewrite (get_entry_found st (entryId e) e); [done..|].
    by apply lookup_intro.
  - intros G. by apply get_entry_200 in G as [? _].
Qed.

Lemma list_agrees_with_get_witness :
  sent (serve get_entries trip_store)
  = {| status := 200; body := JEntries [trip] |}
  ∧ sent (serve (get_entry (js "1")) trip_store)
    = {| status := 200; body := JEntry trip |}.
Proof.
  destruct (list_agrees_with_get trip_store wf_trip_store) as [L G].
  split; [by rewrite L|].
  apply (G trip); [unfold JsNumber.MAX_SAFE_INTEGER; simpl; lia|].
  left.
Defined.

(** What an update and a delete answer once the path and the fields have
    passed. *)
Lemma put_entry_accepted_eq s b t n p st :
  positive_integer (JsNumber.of_string s) →
  present (body_title b) t → present (body_notes b) n →
  present (body_photoUrl b) p →
  serve (put_entry s b) st =
  let q := Store.UpdateById t n p (Store.PNumber (JsNumber.of_string s)) in
  match Store.int_of_param (Store.PNumber (JsNumber.of_string s)) with
  | Some k =>
      let rows' :=
        (λ r, if decide (entryId r = k) then Store.assign t n p r else r)
          <$> Store.rows st in
      {| sent :=
           match filter (λ r, entryId r = k) rows' with
           | [] => {| status := 404; body := JError (js "invalid entry.") |}
           | e :: _ => {| status := 201; body := JEntry e |}
           end;
         store := {| Store.rows := rows'; Store.last_id := Store.last_id st |};
         queries := [q] |}
  | None => {| sent := errorMiddleware StoreError; store := st; queries := [q] |}
  end.
Proof.
  intros P Ht Hn Hp.
  destruct (fields_present b t n p Ht Hn Hp) as (F & Et & En & Ep).
  destruct (put_entry_cases s b) as [[N _]|[_ ->]]; [done|].
  rewrite F, Et, En, Ep. run_query.
  destruct (Store.int_of_param _); [|done]. simpl.
  by destruct (filter _ _).
Qed.

Lemma delete_entry_accepted_eq s st :
  positive_integer (JsNumber.of_string s) →
  serve (delete_entry s) st =
  let q := Store.DeleteById (Store.PText s) in
  match Store.int_of_param (Store.PText s) with
  | Some k =>
      {| sent :=
           match filter (λ r, entryId r = k) (Store.rows st) with
           | [] => {| status := 404;
                      body := JError (js "entryId " ++ s ++ js " does not exists.") |}
           | e :: _ => {| status := 200; body := JEntry e |}
           end;
         store := {| Store.rows := filter (λ r, entryId r ≠ k) (Store.rows st);
                     Store.last_id := Store.last_id st |};
         queries := [q] |}
  | None => {| sent := errorMiddleware StoreError; store := st; queries := [q] |}
  end.
Proof.
  intros P. destruct (delete_entry_cases s) as [[N _]|[_ ->]]; [done|].
  run_query. destruct (Store.int_of_param _); [|done]. simpl.
  by destruct (filter _ _).
Qed.

(** Nothing to assign and nothing to remove when no row has the id. *)
Lemma assign_absent t n p k (l : list Entry) :
  (∀ r, r ∈ l → entryId r ≠ k) →
  (λ r, if decide (entryId r = k) then Store.assign t n p r else r) <$> l = l.
Proof.
  intros A. rewrite <- (list_fmap_id l) at 2. apply list_fmap_ext.
  intros i r Hr. rewrite decide_False; [done|].
  apply A. by eapply list_elem_of_lookup_2.
Qed.

Lemma remove_absent k (l : list Entry) :
  (∀ r, r ∈ l → entryId r ≠ k) → filter (λ r, entryId r ≠ k) l = l.
Proof.
  induction l as [|x l IH]; intros A; [done|].
  rewrite filter_cons_True by (apply A; left). f_equal.
  apply IH. intros r Hr. apply A. by right.
Qed.

Lemma filter_nil_absent k (l : list Entry) :
  filter (λ r, entryId r = k) l = [] → ∀ r, r ∈ l → entryId r ≠ k.
Proof.
  intros F r Hr E.
  assert (r ∈ filter (λ r, entryId r = k) l) as Hin by (by apply list_elem_of_filter).
  rewrite F in Hin. by apply elem_of_nil in Hin.
Qed.

(** X3.  An id the table does not hold is answered 404 by get, update and
    delete alike, and neither the update nor the delete writes anything.
    The id is one a 32-bit integer column can hold (1 to 2147483647) and
    the three fields of the update are present. *)
Theorem missing_id_404 st k b t n p :
  1 ≤ k ≤ INT32_MAX →
  (∀ r, r ∈ Store.rows st → entryId r ≠ k) →
  present (body_title b) t → present (body_notes b) n →
  present (body_photoUrl b) p →
  status (sent (serve (get_entry (JsNumber.toString k)) st)) = 404
  ∧ status (sent (serve (put_entry (JsNumber.toString k) b) st)) = 404
  ∧ store (serve (put_entry (JsNumber.toString k) b) st) = st
  ∧ status (sent (serve (delete_entry (JsNumber.toString k)) st)) = 404
  ∧ store (serve (delete_entry (JsNumber.toString k)) st) = st.
Proof.
  intros Hk A Ht Hn Hp.
  assert (1 ≤ k ≤ JsNumber.MAX_SAFE_INTEGER) as Hk'
    by (unfold INT32_MAX in Hk; unfold JsNumber.MAX_SAFE_INTEGER; lia).
  destruct (toString_path k Hk') as (P & I & I').
  split; [by apply get_entry_missing|].
  rewrite (put_entry_accepted_eq _ b t n p st P Ht Hn Hp), I. cbn zeta.
  rewrite assign_absent, filter_absent by done.
  rewrite (delete_entry_accepted_eq _ st P), I'. cbn zeta.
  rewrite remove_absent, filter_absent by done.
  by destruct st.
Qed.

Lemma missing_id_404_witness :
  status (sent (serve (get_entry (js "2")) trip_store)) = 404
  ∧ status (sent (serve (put_entry (js "2") hike_body) trip_store)) = 404
  ∧ store (serve (put_entry (js "2") hike_body) trip_store) = trip_store
  ∧ status (sent (serve (delete_entry (js "2")) trip_store)) = 404
  ∧ store (serve (delete_entry (js "2")) trip_store) = trip_store.
Proof.
  refine (missing_id_404 trip_store 2 hike_body (js "Hike") (js "Wet") (js "z")
            _ _ _ _ _).
  - unfold INT32_MAX. lia.
  - intros r Hr. apply list_elem_of_singleton in Hr as ->. simpl. lia.
  - split; [reflexivity|vm_compute; discriminate].
  - split; [reflexivity|vm_compute; discriminate].
  - split; [reflexivity|vm_compute; discriminate].
Defined.

(** The counter never goes back. *)
Lemma exec_last_id q st : Store.last_id st ≤ Store.last_id (Store.exec q st).2.
Proof.
  destruct q as [|id|t n p|t n p id|id]; simpl; try lia;
    destruct (Store.int_of_param id); simpl; lia.
Qed.

Lemma run_last_id rs st : Store.last_id st ≤ Store.last_id (run rs st).
Proof.
  revert st. induction rs as [|r rs IH]; intros st; simpl; [lia|].
  etrans; [|apply IH].
  destruct (serve_store r st) as [->|[q ->]]; [lia|apply exec_last_id].
Qed.

(** X4.  Whatever requests are served, the table stays well-formed (ids
    positive, pairwise distinct, none beyond the counter) and the counter
    never goes back. *)
Theorem session_keeps_store_sound st rs :
  Store.wf st →
  Store.wf (run rs st) ∧ Store.last_id st ≤ Store.last_id (run rs st).
Proof. intros W. split; [by apply run_wf|apply run_last_id]. Qed.

Lemma session_keeps_store_sound_witness :
  Store.wf (run [DELETE_entry (js "1"); POST_entry hike_body; PUT_entry (js "2") trip_body]
              trip_store).
Proof.
  exact (proj1 (session_keeps_store_sound trip_store
                  [DELETE_entry (js "1"); POST_entry hike_body;
                   PUT_entry (js "2") trip_body] wf_trip_store)).
Defined.

Lemma post_entry_201 b st e :
  sent (serve (post_entry b) st) = {| status := 201; body := JEntry e |} →
  e = created st (text (body_title b)) (text (body_notes b)) (text (body_photoUrl b))
  ∧ serve (post_entry b) st
    = {| sent := {| status := 201; body := JEntry e |};
         store := {| Store.rows := Store.rows st ++ [e];
                     Store.last_id := Store.last_id st + 1 |};
         queries := [Store.Insert (text (body_title b)) (text (body_notes b))
                       (text (body_photoUrl b))] |}.
Proof.
  unfold post_entry. destruct (_ || _ || _); [discriminate|].
  run_query. by intros [= <-].
Qed.

(** X5.  An id is handed out once: whatever was served since, the id of a
    newly created entry is beyond the counter of every earlier store, so it
    is the id of no row that store held, deleted since or not. *)
Theorem created_id_is_new st rs b e :
  Store.wf st →
  sent (serve (post_entry b) (run rs st))
  = {| status := 201; body := JEntry e |} →
  Store.last_id st < entryId e
  ∧ ∀ r, r ∈ Store.rows st → entryId r < entryId e.
Proof.
  intros W [-> _]%post_entry_201. pose proof (run_last_id rs st) as L.
  simpl. split; [lia|]. intros r Hr. apply W in Hr. lia.
Qed.

Lemma created_id_is_new_witness :
  sent (serve (post_entry hike_body) (run [DELETE_entry (js "1")] trip_store))
  = {| status := 201;
       body := JEntry {| entryId := 2; title := js "Hike"; notes := js "Wet";
                         photoUrl := js "z" |} |}
  ∧ 1 < 2.
Proof.
  assert (sent (serve (post_entry hike_body) (run [DELETE_entry (js "1")] trip_store))
          = {| status := 201;
               body := JEntry {| entryId := 2; title := js "Hike"; notes := js "Wet";
                                 photoUrl := js "z" |} |}) as H by reflexivity.
  split; [exact H|].
  exact (proj1 (created_id_is_new trip_store [DELETE_entry (js "1")] hike_body _
                  wf_trip_store H)).
Defined.

(** A request that reads or creates keeps every row of the table. *)
Lemma reads_or_creates_keep r st e :
  reads_or_creates r = true → e ∈ Store.rows st →
  e ∈ Store.rows (store (serve (route r) st)).
Proof.
  intros R Hin. destruct r as [|s|b|s b|s]; try discriminate; cbn [route].
  - done.
  - by rewrite get_entry_unchanged.
  - unfold post_entry. destruct (_ || _ || _); [done|]. run_query.
    apply elem_of_app. by left.
Qed.

(** X6.  Entries outlive reads and creates: an entry of the table is still
    what a get by its id returns, with 200, after any sequence of list, get
    and create requests, whatever their paths and bodies.  The store is
    well-formed and the id within [Number.MAX_SAFE_INTEGER]. *)
Theorem entries_outlive_reads_and_creates st e rs :
  Store.wf st → e ∈ Store.rows st →
  entryId e ≤ JsNumber.MAX_SAFE_INTEGER →
  Forall (λ r, reads_or_creates r = true) rs →
  sent (serve (get_entry (JsNumber.toString (entryId e))) (run rs st))
  = {| status := 200; body := JEntry e |}.
Proof.
  intros W Hin Hk F.
  assert (Store.wf (run rs st) ∧ e ∈ Store.rows (run rs st)) as [W' Hin'].
  { revert st W Hin. induction F as [|r rs R _ IH]; intros st W Hin; [done|].
    simpl. apply IH; [by apply serve_wf|by apply reads_or_creates_keep]. }
  rewrite (get_entry_found (run rs st) (entryId e) e); [done..|].
  by apply lookup_intro.
Qed.

Lemma entries_outlive_reads_and_creates_witness :
  sent (serve (get_entry (js "1"))
          (run [POST_entry hike_body; GET_entry (js "2"); POST_entry partial_body;
                GET_entries] trip_store))
  = {| status := 200; body := JEntry trip |}.
Proof.
  assert (trip ∈ Store.rows trip_store) as Hin by left.
  assert (entryId trip ≤ JsNumber.MAX_SAFE_INTEGER) as Hk
    by (unfold JsNumber.MAX_SAFE_INTEGER; simpl; lia).
  assert (Forall (λ r, reads_or_creates r = true)
            [POST_entry hike_body; GET_entry (js "2"); POST_entry partial_body;
             GET_entries]) as F by (repeat constructor).
  exact (entries_outlive_reads_and_creates trip_store trip _ wf_trip_store Hin Hk F).
Defined.

Lemma filter_split_length (k : Z) (l : list Entry) :
  (length (filter (λ r, entryId r = k) l)
   + length (filter (λ r, entryId r ≠ k) l) = length l)%nat.
Proof.
  induction l as [|x l IH]; [done|].
  destruct (decide (entryId x = k)).
  - rewrite filter_cons_True, (filter_cons_False (λ r, entryId r ≠ k)) by tauto.
    simpl. lia.
  - rewrite filter_cons_False, (filter_cons_True (λ r, entryId r ≠ k)) by tauto.
    simpl. lia.
Qed.

(** X7.  Deleting an existing id removes that one row and nothing else:
    the other rows stay, in their order, the counter stays, and the table is
    one row shorter.  The store is well-formed and the id within
    [Number.MAX_SAFE_INTEGER]. *)
Theorem delete_removes_one_row st k e :
  Store.wf st → k ≤ JsNumber.MAX_SAFE_INTEGER → Store.lookup k st = Some e →
  let st' := store (serve (delete_entry (JsNumber.toString k)) st) in
  Store.rows st' = filter (λ r, entryId r ≠ k) (Store.rows st)
  ∧ Store.last_id st' = Store.last_id st
  ∧ length (Store.rows st) = S (length (Store.rows st'))
  ∧ ∀ r, r ∈ Store.rows st' ↔ r ∈ Store.rows st ∧ r ≠ e.
Proof.
  intros W Hk L st'.
  destruct (lookup_Some_elem _ _ _ L) as [Hin Hid].
  assert (1 ≤ k) as Hk1 by (rewrite <- Hid; by apply W).
  destruct (toString_path k ltac:(lia)) as (P & _ & I).
  subst st'. rewrite (delete_entry_accepted_eq _ st P), I. cbn zeta. simpl.
  pose proof (lookup_rows k st e W L) as F.
  split_and!; [done|done| |].
  - pose proof (filter_split_length k (Store.rows st)) as S.
    rewrite F in S. simpl in S. lia.
  - intros r. rewrite list_elem_of_filter. split.
    + intros [Hne Hr]. split; [done|]. intros ->. by apply Hne.
    + intros [Hr Hne]. split; [|done]. intros E. apply Hne.
      assert (r ∈ filter (λ r, entryId r = k) (Store.rows st)) as Hf
        by (by apply list_elem_of_filter).
      rewrite F in Hf. by apply list_elem_of_singleton in Hf.
Qed.

Lemma delete_removes_one_row_witness :
  Store.rows (store (serve (delete_entry (js "1"))
                       (store (serve (post_entry hike_body) trip_store))))
  = [{| entryId := 2; title := js "Hike"; notes := js "Wet"; photoUrl := js "z" |}].
Proof.
  assert (Store.wf (store (serve (post_entry hike_body) trip_store))) as W
    by apply (serve_wf (POST_entry hike_body) trip_store wf_trip_store).
  assert (1 ≤ JsNumber.MAX_SAFE_INTEGER) as Hk
    by (unfold JsNumber.MAX_SAFE_INTEGER; lia).
  destruct (delete_removes_one_row
              (store (serve (post_entry hike_body) trip_store)) 1 trip W Hk
              eq_refl) as [R _].
  exact R.
Defined.

(** X8.  An update or a delete that does not answer with its success status
    (201, 200) has written nothing: after a 400, a 404 or a 500 the store is
    the store of before. *)
Theorem failed_write_leaves_store s b st :
  (status (sent (serve (put_entry s b) st)) ≠ 201 →
   store (serve (put_entry s b) st) = st)
  ∧ (status (sent (serve (delete_entry s) st)) ≠ 200 →
     store (serve (delete_entry s) st) = st).
Proof.
  split.
  - destruct (put_entry_cases s b) as [[_ ->]|[P ->]]; [done|].
    destruct (_ || _ || _); [done|]. run_query.
    destruct (Store.int_of_param _) as [k|]; [|done]. simpl.
    destruct (filter _ _) as [|e l] eqn:F; simpl; [|done]. intros _.
    assert (∀ r, r ∈ Store.rows st → entryId r ≠ k) as A.
    { intros r Hr E. apply (filter_nil_absent _ _ F (Store.assign
        (text (body_title b)) (text (body_notes b)) (text (body_photoUrl b)) r));
        [|done].
      apply list_elem_of_fmap. exists r. by rewrite decide_True. }
    rewrite assign_absent by done. by destruct st.
  - destruct (delete_entry_cases s) as [[_ ->]|[P _]]; [done|].
    rewrite (delete_entry_accepted_eq s st P). cbn zeta.
    destruct (Store.int_of_param _) as [k|]; [|done]. simpl.
    destruct (filter _ _) as [|e l] eqn:F; simpl; [|done]. intros _.
    rewrite remove_absent by (by apply filter_nil_absent). by destruct st.
Qed.

(** X9.  An update is idempotent: sent a second time to the store the first
    one left, the same request gets the same answer, sends the same
    statement and leaves the same store. *)
Theorem update_twice_is_update_once s b st :
  serve (put_entry s b) (store (serve (put_entry s b) st))
  = serve (put_entry s b) st.
Proof.
  destruct (put_entry_cases s b) as [[_ ->]|[P ->]]; [done|].
  destruct (_ || _ || _); [done|]. run_query.
  destruct (Store.int_of_param _) as [k|]; [|done]. simpl.
  set (f := λ r, if decide (entryId r = k)
                 then Store.assign (text (body_title b)) (text (body_notes b))
                        (text (body_photoUrl b)) r
                 else r).
  assert (f <$> (f <$> Store.rows st) = f <$> Store.rows st) as Hff.
  { rewrite <- list_fmap_compose. apply list_fmap_ext. intros _ r _.
    unfold f, compose. by destruct (decide (entryId r = k)) as [E'|E'];
      simpl; [rewrite decide_True|rewrite decide_False]. }
  destruct (filter (λ r, entryId r = k) (f <$> Store.rows st)) eqn:F; simpl;
    by rewrite Hff, F.
Qed.

(** X10.  For a path that passes validation each handler sends the store
    one statement: get and update pass it [Number] of the path, delete
    passes it the path string itself, as the request spelled it. *)
Theorem delete_sends_path_text s st :
  positive_integer (Number (VString s)) →
  queries (serve (delete_entry s) st) = [Store.DeleteById (Store.PText s)]
  ∧ queries (serve (get_entry s) st)
    = [Store.SelectById (Store.PNumber (Number (VString s)))]
  ∧ ∀ b t n p,
      present (body_title b) t → present (body_notes b) n →
      present (body_photoUrl b) p →
      queries (serve (put_entry s b) st)
      = [Store.UpdateById t n p (Store.PNumber (Number (VString s)))].
Proof.
  intros P. split_and!.
  - rewrite (delete_entry_accepted_eq s st P). cbn zeta.
    by destruct (Store.int_of_param _).
  - rewrite (get_entry_accepted_eq s st P).
    by destruct (Store.int_of_param _).
  - intros b t n p Ht Hn Hp.
    rewrite (put_entry_accepted_eq s b t n p st P Ht Hn Hp). cbn zeta.
    by destruct (Store.int_of_param _).
Qed.

Lemma delete_sends_path_text_witness :
  queries (serve (delete_entry (js " 0x1 ")) trip_store)
  = [Store.DeleteById (Store.PText (js " 0x1 "))]
  ∧ queries (serve (get_entry (js " 0x1 ")) trip_store)
    = [Store.SelectById (Store.PNumber JsNumber.one)].
Proof.
  assert (positive_integer (Number (VString (js " 0x1 ")))) as P
    by (exists 1; split; [reflexivity|lia]).
  destruct (delete_sends_path_text (js " 0x1 ") trip_store P) as (D & G & _).
  split; [exact D|exact G].
Defined.

(** X11.  Get and update know a path only by its Number: two paths of the
    same Number, such as ["7"] and [" 0x7 "], get the same update done and
    the same answer to it, and the same status and row from get. *)
Theorem equal_numbers_same_row s1 s2 b st :
  Number (VString s1) = Number (VString s2) →
  serve (put_entry s1 b) st = serve (put_entry s2 b) st
  ∧ status (sent (serve (get_entry s1) st)) = status (sent (serve (get_entry s2) st))
  ∧ queries (serve (get_entry s1) st) = queries (serve (get_entry s2) st)
  ∧ ∀ e, sent (serve (get_entry s1) st) = {| status := 200; body := JEntry e |} →
         sent (serve (get_entry s2) st) = {| status := 200; body := JEntry e |}.
Proof.
  unfold Number, ToNumber. intros E.
  assert (put_entry s1 b = put_entry s2 b) as ->.
  { unfold put_entry, Number, unary_plus, ToNumber. by rewrite E. }
  split; [done|].
  destruct (get_entry_cases s1) as [[N1 E1]|[P1 _]],
           (get_entry_cases s2) as [[N2 E2]|[P2 _]];
    try (exfalso; rewrite E in *; tauto).
  { by rewrite E1, E2. }
  rewrite (get_entry_accepted_eq s1 st P1), (get_entry_accepted_eq s2 st P2), E.
  destruct (Store.int_of_param _); [|done].
  by destruct (filter _ _).
Qed.

Lemma equal_numbers_same_row_witness :
  serve (put_entry (js "1") hike_body) trip_store
  = serve (put_entry (js " 0x1 ") hike_body) trip_store
  ∧ sent (serve (get_entry (js " 0x1 ")) trip_store)
    = {| status := 200; body := JEntry trip |}.
Proof.
  destruct (equal_numbers_same_row (js "1") (js " 0x1 ") hike_body trip_store
              eq_refl) as (U & _ & _ & G).
  split; [exact U|]. by apply G.
Defined.

End Handlers_more.

(** * Properties of the entry form *)

Section Form_properties.
Import Server.

#[local] Arguments JsString.js : simpl never.

Lemma fold_reduce_Do (l : list Client.effect) s :
  fold_left Form.reduce (Form.Do <$> l) s = fold_left Client.reduce l s.
Proof. revert s. induction l as [|e l IH]; intros s; [done|]. simpl. apply IH. Qed.

(** The submit path sets no cell and sends no request without a body. *)
Lemma submit_sets_nothing entryId s f r :
  fold_left Client.reduce (Client.submit entryId s f r) s = s.
Proof.
  unfold Client.submit, Client.handleSubmit, Client.floating.
  destruct (Client.isEditing entryId); simpl; unfold Client.after_save;
    destruct r as [|res]; try destruct (Client.ok _); reflexivity.
Qed.

Lemma Do_no_fetch (l : list Client.effect) v url :
  Form.FetchUrl v url ∉ Form.Do <$> l.
Proof. by intros (e & [=] & _)%list_elem_of_fmap. Qed.

(** X12.  A confirmed delete sends its request only when an entry with an
    id is loaded, to the path of that id, and navigates to the list only
    when the response is ok; otherwise it ends in a rejection nobody
    handles.  It sets no cell of the component. *)
Theorem delete_navigates_on_success s r :
  (Form.Do (Client.Navigate (js "/")) ∈ Form.deleting s r
   ↔ ∃ e res, Client.entry s = Some e ∧ entryId e ≠ 0
              ∧ r = Client.Responded res ∧ Client.ok (status res) = true)
  ∧ (∀ e, Client.entry s = Some e → entryId e ≠ 0 →
          head (Form.deleting s r)
          = Some (Form.FetchUrl Form.DELETE
                    (js "/api/entries/" ++ JsNumber.toString (entryId e))))
  ∧ ((∀ e, Client.entry s = Some e → entryId e = 0) →
     Form.deleting s r
     = [Form.Do (Client.UnhandledRejection (js "Should never happen"))])
  ∧ (Form.Do (Client.Navigate (js "/")) ∉ Form.deleting s r →
     ∃ m, last (Form.deleting s r) = Some (Form.Do (Client.UnhandledRejection m)))
  ∧ fold_left Form.reduce (Form.deleting s r) s = s.
Proof.
  unfold Form.deleting, Form.handleDelete.
  destruct (Client.entry s) as [e|] eqn:E.
  - destruct (Z.eqb_spec (entryId e) 0) as [Z|Z].
    + split_and!; simpl.
      * split; [by intros [=]%list_elem_of_singleton|].
        by intros (e' & res & [= <-] & N & _).
      * by intros e' [= <-] N.
      * done.
      * eauto.
      * done.
    + destruct r as [|res]; [|destruct (Client.ok (status res)) eqn:O];
        split_and!; simpl.
      all: try (by intros e' [= <-] _).
      all: try (intros A; by specialize (A e eq_refl)).
      all: try (intros _; eauto; fail).
      all: try done.
      * split; [|by intros (? & ? & _ & _ & [=] & _)].
        intros [[=]|[=]%list_elem_of_singleton]%elem_of_cons.
      * split; [intros _; by exists e, res|]. intros _. right. left.
      * intros A. destruct A. right. left.
      * split; [|intros (? & res' & _ & _ & [= <-] & O'); congruence].
        intros [[=]|[=]%list_elem_of_singleton]%elem_of_cons.
  - split_and!; simpl.
    + split; [by intros [=]%list_elem_of_singleton|]. by intros (? & ? & [=] & _).
    + done.
    + done.
    + eauto.
    + done.
Qed.


(** X13.  No delete without a click on Delete: on a form whose modal is
    closed, no row of events sends a DELETE request unless it clicks the
    Delete button, and on the form for a new entry, where that button is
    not on screen, none ever does. *)
Theorem delete_needs_a_click entryId s evs :
  Client.isDeleting s = false →
  Client.isEditing entryId = false ∨ Form.ClickDelete ∉ evs →
  ∀ url, Form.FetchUrl Form.DELETE url ∉ Form.play entryId s evs.
Proof.
  revert s. induction evs as [|ev evs IH]; intros s D H url; simpl.
  { apply not_elem_of_nil. }
  assert (Client.isEditing entryId = false ∨ Form.ClickDelete ∉ evs) as H'.
  { destruct H as [H|H]; [by left|right]. intros Hin. apply H. by right. }
  destruct (Form.enabled entryId s ev) eqn:En; [|by apply IH].
  unfold Form.enabled in En. destruct (Client.render s); try discriminate.
  destruct ev as [f r|v| | |r]; cbn [Form.handle].
  - rewrite fold_reduce_Do, submit_sets_nothing.
    intros [Hin|Hin]%elem_of_app; [by apply Do_no_fetch in Hin|].
    by apply (IH s D H' url).
  - cbn [app fold_left Form.reduce]. intros [[=]|Hin]%elem_of_cons.
    exact (IH (Client.reduce s (Client.SetPhotoUrl v)) D H' url Hin).
  - destruct H as [H|H]; [congruence|]. destruct H. left.
  - congruence.
  - congruence.
Qed.

Lemma delete_needs_a_click_witness :
  Form.FetchUrl Form.DELETE (js "/api/entries/1")
  ∉ Form.play (Some (js "new")) Client.initial
      [Form.ClickDelete; Form.ClickConfirm Client.NetworkError].
Proof.
  exact (delete_needs_a_click (Some (js "new")) Client.initial
           [Form.ClickDelete; Form.ClickConfirm Client.NetworkError]
           eq_refl (or_introl eq_refl) (js "/api/entries/1")).
Defined.



Lemma loading_keeps_error show entryId a s m :
  Client.error s = Some m → Client.isLoading s = false →
  ∃ m', Client.error (fold_left Form.reduce (Form.loading show entryId a) s)
        = Some m'
        ∧ Client.isLoading (fold_left Form.reduce (Form.loading show entryId a) s)
          = false.
Proof.
  intros E L. unfold Form.loading, Form.load.
  destruct (Client.isEditing entryId); [|by exists m].
  destruct a as [m1|status [m1|e]]; [|destruct (Client.ok status)..]; simpl; eauto.
Qed.

(** X15.  An error is never cleared: once the error cell is set and the
    flag is down, the error line stays on screen after any number of further
    loads, successful ones included, under whatever routes, and no event on
    the form does anything. *)
Theorem error_is_sticky show s m loads entryId evs :
  Client.error s = Some m → Client.isLoading s = false →
  (∃ m', Client.render (reloaded show s loads) = Client.ErrorLoading m')
  ∧ Form.play entryId (reloaded show s loads) evs = [].
Proof.
  intros E L.
  assert (∃ m', Client.error (reloaded show s loads) = Some m'
                ∧ Client.isLoading (reloaded show s loads) = false)
    as (m' & E' & L').
  { revert s m E L. unfold reloaded.
    induction loads as [|[route a] loads IH]; intros s m E L; simpl; [eauto|].
    destruct (loading_keeps_error show route a s m E L) as (m1 & E1 & L1).
    by eapply IH. }
  assert (Client.render (reloaded show s loads) = Client.ErrorLoading m') as R
    by (unfold Client.render; by rewrite L', E').
  split; [eauto|].
  clear -R. induction evs as [|ev evs IH]; [done|]. simpl.
  unfold Form.enabled. by rewrite R.
Qed.

Lemma error_is_sticky_witness :
  Client.render
    (reloaded (λ _, js "1")
       (fold_left Form.reduce
          (Form.loading (λ _, js "9") (Some (js "9")) (Form.Arrived 404 (inl [])))
          Client.initial)
       [(Some (js "1"), Form.Arrived 200 (inr trip))])
  = Client.ErrorLoading (js "Entry with ID 9 not found. (404)").
Proof.
  destruct (error_is_sticky (λ _, js "1")
              (fold_left Form.reduce
                 (Form.loading (λ _, js "9") (Some (js "9"))
                    (Form.Arrived 404 (inl [])))
                 Client.initial)
              (js "Entry with ID 9 not found. (404)")
              [(Some (js "1"), Form.Arrived 200 (inr trip))] (Some (js "1")) []
              eq_refl eq_refl) as [[m' R] _].
  rewrite R. f_equal. vm_compute in R. by injection R.
Defined.

(** The path of an id is the route of an entry to edit. *)
Lemma isEditing_path k :
  1 ≤ k → Client.isEditing (Some (JsNumber.toString k)) = true.
Proof.
  intros Hk. destruct k as [|p|p]; try lia. cbn [JsNumber.toString].
  destruct (decimal_spec p) as (Hd & Hne & _).
  apply isEditing_spec. exists (JsNumber.decimal (N.pos p)).
  split_and!; [done|done|].
  destruct (JsNumber.decimal (N.pos p)) as [|c r]; [done|].
  apply Forall_cons in Hd as [Hc _]. vm_compute (js "new").
  intros [= -> _]. unfold is_digit in Hc. lia.
Qed.

Lemma filled_present f :
  Form.filled f = true →
  present (body_title (Client.newEntry f)) (Client.form_title f)
  ∧ present (body_notes (Client.newEntry f)) (Client.form_notes f)
  ∧ present (body_photoUrl (Client.newEntry f)) (Client.form_photoUrl f).
Proof.
  unfold Form.filled. rewrite !andb_true_iff, !negb_true_iff, !bool_decide_eq_false.
  intros [[? ?] ?]. by split_and!.
Qed.

Lemma enabled_submit_filled entryId s f r :
  Form.enabled entryId s (Form.Submit f r) = true → Form.filled f = true.
Proof. unfold Form.enabled. by destruct (Client.render s). Qed.

(** X16.  What the form lets the user submit for a new entry, the server
    accepts: the three controls are required, so the create is answered 201
    with an entry of the values typed, the handler sends one POST, navigates
    to the list, and nothing is rejected. *)
Theorem form_create_is_accepted entryId s f r st :
  Form.enabled entryId s (Form.Submit f r) = true →
  Client.isEditing entryId = false →
  sent (serve (post_entry (Client.newEntry f)) st)
  = {| status := 201;
       body := JEntry {| entryId := Store.last_id st + 1;
                         title := Client.form_title f;
                         notes := Client.form_notes f;
                         photoUrl := Client.form_photoUrl f |} |}
  ∧ Form.handle entryId s
      (Form.Submit f
         (Client.Responded (sent (serve (post_entry (Client.newEntry f)) st))))
    = Form.Do <$>
        [Client.PreventDefault;
         Client.Fetch {| Client.method_ := Client.POST;
                         Client.url := js "/api/entries";
                         Client.payload := Client.newEntry f |};
         Client.Navigate (js "/")].
Proof.
  intros En Ed. apply enabled_submit_filled, filled_present in En as (Ht & Hn & Hp).
  rewrite (post_entry_present _ _ _ _ st Ht Hn Hp).
  split; [done|].
  cbn [Form.handle]. unfold Client.submit, Client.handleSubmit. by rewrite Ed.
Qed.

Lemma form_create_is_accepted_witness :
  sent (serve (post_entry
                 (Client.newEntry
                    {| Client.form_title := js "Trip";
                       Client.form_photoUrl := js "http://x/y.jpg";
                       Client.form_notes := js "Fun" |})) Store.empty)
  = {| status := 201; body := JEntry trip |}.
Proof.
  exact (proj1 (form_create_is_accepted (Some (js "new")) Client.initial
                  {| Client.form_title := js "Trip";
                     Client.form_photoUrl := js "http://x/y.jpg";
                     Client.form_notes := js "Fun" |}
                  Client.NetworkError Store.empty eq_refl eq_refl)).
Defined.

(** X17.  Editing end to end: with an entry of the table loaded under the
    route of its id, what the form lets the user submit is sent as a PUT to
    the path of that id, the server answers 201 with the entry of that id
    carrying the values typed, and nothing is rejected.  The store is
    well-formed and the id within [Number.MAX_SAFE_INTEGER]. *)
Theorem form_edit_updates_entry st k old s f r :
  Store.wf st → k ≤ JsNumber.MAX_SAFE_INTEGER → Store.lookup k st = Some old →
  Client.entry s = Some old →
  Form.enabled (Some (JsNumber.toString k)) s (Form.Submit f r) = true →
  let b := Client.spread (Some old) (Client.newEntry f) in
  sent (serve (put_entry (JsNumber.toString k) b) st)
  = {| status := 201;
       body := JEntry {| entryId := k;
                         title := Client.form_title f;
                         notes := Client.form_notes f;
                         photoUrl := Client.form_photoUrl f |} |}
  ∧ Form.handle (Some (JsNumber.toString k)) s
      (Form.Submit f
         (Client.Responded (sent (serve (put_entry (JsNumber.toString k) b) st))))
    = Form.Do <$>
        [Client.PreventDefault;
         Client.Fetch {| Client.method_ := Client.PUT;
                         Client.url := js "/api/entries/" ++ JsNumber.toString k;
                         Client.payload := b |};
         Client.Navigate (js "/")].
Proof.
  intros W Hk L E En b.
  apply enabled_submit_filled, filled_present in En as (Ht & Hn & Hp).
  destruct (lookup_Some_elem _ _ _ L) as [Hin Hid].
  assert (1 ≤ k) as Hk1 by (rewrite <- Hid; by apply W).
  destruct (put_entry_found st k old b _ _ _ W Hk L Ht Hn Hp) as (S & _ & _).
  rewrite S. split; [done|].
  cbn [Form.handle]. unfold Client.submit, Client.handleSubmit.
  by rewrite (isEditing_path k Hk1), E.
Qed.

Lemma form_edit_updates_entry_witness :
  sent (serve (put_entry (js "1")
                 (Client.spread (Some trip)
                    (Client.newEntry
                       {| Client.form_title := js "Hike";
                          Client.form_photoUrl := js "z";
                          Client.form_notes := js "Wet" |}))) trip_store)
  = {| status := 201;
       body := JEntry {| entryId := 1; title := js "Hike"; notes := js "Wet";
                         photoUrl := js "z" |} |}.
Proof.
  assert (1 ≤ JsNumber.MAX_SAFE_INTEGER) as Hk
    by (unfold JsNumber.MAX_SAFE_INTEGER; lia).
  exact (proj1 (form_edit_updates_entry trip_store 1 trip
                  {| Client.entry := Some trip; Client.photoUrl_ := None;
                     Client.isLoading := false; Client.error := None;
                     Client.isDeleting := false |}
                  {| Client.form_title := js "Hike"; Client.form_photoUrl := js "z";
                     Client.form_notes := js "Wet" |}
                  Client.NetworkError wf_trip_store Hk eq_refl eq_refl eq_refl)).
Defined.

(** X18.  Deleting end to end: with an entry of the table loaded, a
    confirmed delete sends a DELETE to the path of its id, the server
    answers 200 with that entry and removes its row, and the form navigates
    to the list.  The store is well-formed and the id within
    [Number.MAX_SAFE_INTEGER]. *)
Theorem form_delete_removes_entry st e s :
  Store.wf st → entryId e ≤ JsNumber.MAX_SAFE_INTEGER → e ∈ Store.rows st →
  Client.entry s = Some e →
  let o := serve (delete_entry (JsNumber.toString (entryId e))) st in
  sent o = {| status := 200; body := JEntry e |}
  ∧ Store.lookup (entryId e) (store o) = None
  ∧ Form.deleting s (Client.Responded (sent o))
    = [Form.FetchUrl Form.DELETE
         (js "/api/entries/" ++ JsNumber.toString (entryId e));
       Form.Do (Client.Navigate (js "/"))].
Proof.
  intros W Hk Hin E o.
  assert (1 ≤ entryId e) as Hk1 by (by apply W).
  destruct (toString_path (entryId e) ltac:(lia)) as (P & _ & I).
  pose proof (lookup_rows _ st e W (lookup_intro st e W Hin)) as F.
  assert (sent o = {| status := 200; body := JEntry e |}
          ∧ Store.lookup (entryId e) (store o) = None) as [S N].
  { subst o. rewrite (delete_entry_accepted_eq _ st P), I. cbn zeta.
    rewrite F. split; [done|]. unfold Store.lookup. simpl.
    rewrite filter_absent; [done|]. by intros r [? _]%list_elem_of_filter. }
  split_and!; [done|done|].
  unfold Form.deleting, Form.handleDelete. rewrite E, S.
  destruct (Z.eqb_spec (entryId e) 0); [lia|done].
Qed.

Lemma form_delete_removes_entry_witness :
  Form.deleting
    {| Client.entry := Some trip; Client.photoUrl_ := None;
       Client.isLoading := false; Client.error := None;
       Client.isDeleting := true |}
    (Client.Responded (sent (serve (delete_entry (js "1")) trip_store)))
  = [Form.FetchUrl Form.DELETE (js "/api/entries/1");
     Form.Do (Client.Navigate (js "/"))].
Proof.
  assert (entryId trip ≤ JsNumber.MAX_SAFE_INTEGER) as Hk
    by (unfold JsNumber.MAX_SAFE_INTEGER; simpl; lia).
  assert (trip ∈ Store.rows trip_store) as Hin by left.
  destruct (form_delete_removes_entry trip_store trip
              {| Client.entry := Some trip; Client.photoUrl_ := None;
                 Client.isLoading := false; Client.error := None;
                 Client.isDeleting := true |}
              wf_trip_store Hk Hin eq_refl) as (_ & _ & D).
  exact D.
Defined.

End Form_properties.
